(** * Pulse library of PycQED: waveform synthesis for AWG channels

    Shallow embedding of
    [modules/measurement/waveform_control/pulse_library.py]
    (classes [MW_IQmod_pulse], [SSB_DRAG_pulse], [Mux_DRAG_pulse]).

    Numeric model: numpy's float arrays are lists of real numbers ([R]);
    rounding, [inf] and [nan] of binary64 are not represented.  Python
    exceptions are the [inl] results of an error monad. *)

From Stdlib Require Import Reals Lra Sorted Ascii SpecFloat.
From stdpp Require Import gmap strings list.

#[local] Open Scope R_scope.

(** ** Exceptions and the error monad *)

Inductive exn : Type :=
| IndexError
| ValueError.

Definition result (A : Type) : Type := (exn + A)%type.

Definition ret {A : Type} (a : A) : result A := inr a.

Definition raise {A : Type} (e : exn) : result A := inl e.

Definition bind {A B : Type} (m : result A) (k : A → result B) : result B :=
  match m with
  | inl e => inl e
  | inr a => k a
  end.

Notation "'let*' x := m 'in' k" := (bind m (λ x, k))
  (at level 10, x pattern, m at level 100, k at level 200).

(** ** One-dimensional numpy arrays *)

Abbreviation array := (list R).

#[local] Instance Rle_decision (x y : R) : Decision (x <= y) := Rle_dec x y.
#[local] Instance Rge_decision (x y : R) : Decision (x >= y) := Rge_dec x y.
#[local] Instance Req_decision : EqDecision R := Req_dec_T.

(** [a[i]] for a non-negative index. *)
Definition getitem {A : Type} (a : list A) (i : nat) : result A :=
  match a !! i with
  | Some x => ret x
  | None => raise IndexError
  end.

(** [a[-1]]. *)
Definition getitem_last {A : Type} (a : list A) : result A :=
  match last a with
  | Some x => ret x
  | None => raise IndexError
  end.

(** [np.where(c)[0]]: the indices at which the boolean array holds. *)
Fixpoint np_where_from (i : nat) (c : list bool) : list nat :=
  match c with
  | [] => []
  | b :: c' =>
      if b then i :: np_where_from (S i) c' else np_where_from (S i) c'
  end.

Definition np_where (c : list bool) : list nat := np_where_from 0 c.

(** [a >= x] and [a <= x], array against scalar. *)
Definition arr_ge (a : array) (x : R) : list bool :=
  map (λ v, bool_decide (v >= x)) a.

Definition arr_le (a : array) (x : R) : list bool :=
  map (λ v, bool_decide (v <= x)) a.

Definition np_zeros (n : nat) : array := replicate n 0.

Definition np_ones (n : nat) : array := replicate n 1.

(** [a - x], array minus scalar. *)
Definition arr_sub_scalar (a : array) (x : R) : array := map (λ v, v - x) a.

(** [a[i:j]] for non-negative [i], [j]. *)
Definition slice {A : Type} (a : list A) (i j : nat) : list A :=
  take (j - i) (drop i a).

(** Shape of the elementwise combination of two 1-d arrays of lengths
    [n] and [m] (numpy broadcasting): equal lengths, or one of them 1. *)
Definition broadcast_len (n m : nat) : result nat :=
  if decide (n = m) then ret n
  else if decide (n = 1%nat) then ret m
  else if decide (m = 1%nat) then ret n
  else raise ValueError.

(** [a] seen with shape [n]; a one-element array is repeated. *)
Definition broadcast_to (n : nat) (a : array) : array :=
  if decide (length a = n) then a
  else match a with
       | [x] => replicate n x
       | _ => a
       end.

Fixpoint map3 {A B C D : Type} (f : A → B → C → D)
    (a : list A) (b : list B) (c : list C) : list D :=
  match a, b, c with
  | x :: a', y :: b', z :: c' => f x y z :: map3 f a' b' c'
  | _, _, _ => []
  end.

(** [wf[i:j] += v]: the right-hand side must have the slice's length or
    length one, else numpy raises ValueError. *)
Definition iadd_slice (wf : array) (i j : nat) (v : array) : result array :=
  let target := slice wf i j in
  let m := length target in
  if decide (length v = m ∨ length v = 1%nat) then
    ret (take i wf ++ zip_with Rplus target (broadcast_to m v)
           ++ drop (i + m) wf)
  else raise ValueError.

(** ** The modulation / predistortion transform *)

Definition deg2rad (d : R) : R := 2 * PI * d / 360.

(** One sample of [mod_I] and of [mod_Q], at modulation angle [x].
    Division is total over the reals: where [alpha·cos(phi_skew) = 0] the
    code divides by zero and yields inf or nan, which this model does not
    represent.  A property that asserts a value of [mod_Q] carries
    [alpha·cos(phi_skew) ≠ 0], or has the same expression on both
    sides. *)
Definition mod_I_at (phi_skew : R) (x env_I env_Q : R) : R :=
  cos x * env_I - tan (deg2rad phi_skew) * sin x * env_I
  + sin x * env_Q + tan (deg2rad phi_skew) * cos x * env_Q.

Definition mod_Q_at (phi_skew alpha : R) (x env_I env_Q : R) : R :=
  (- sin x * env_I + cos x * env_Q) / (alpha * cos (deg2rad phi_skew)).

(** Modelled from the spec: [apply_modulation] of
    [modules/measurement/waveform_control/pulse.py], which is not part of
    the sources at hand.  Section 4.1 of the specification gives the
    closed form, applied elementwise over [t] with
    [x(t) = 2π·mod_frequency·t + phase_in_radians], phase and skew in
    degrees.  The elementwise arithmetic is numpy's: operands of different
    lengths raise ValueError unless one of them has length one. *)
Definition apply_modulation (I_env Q_env tvals : array)
    (mod_frequency phase phi_skew alpha : R) : result (array * array) :=
  let x := map (λ t, 2 * PI * mod_frequency * t + deg2rad phase) tvals in
  let* n1 := broadcast_len (length I_env) (length x) in
  let* n := broadcast_len n1 (length Q_env) in
  let x' := broadcast_to n x in
  let I' := broadcast_to n I_env in
  let Q' := broadcast_to n Q_env in
  ret (map3 (mod_I_at phi_skew) x' I' Q',
       map3 (mod_Q_at phi_skew alpha) x' I' Q').

(** The signature of the transform.  [chan_wf] of the two Gaussian
    classes is stated over any transform of this signature, so that what
    it hands to the transform can be observed; the classes themselves
    use [apply_modulation]. *)
Abbreviation transform :=
  (array → array → array → R → R → R → R → result (array * array)).

(** ** The active sample window

    The first two statements of every [chan_wf]:
    [idx0 = np.where(tvals >= tvals[0])[0][0]] and
    [idx1 = np.where(tvals <= tvals[0] + self.length)[0][-1] + 1]. *)
Definition active_window (tvals : array) (len : R) : result (nat * nat) :=
  let* t0 := getitem tvals 0 in
  let* idx0 := getitem (np_where (arr_ge tvals t0)) 0 in
  let* t0' := getitem tvals 0 in
  let* i1 := getitem_last (np_where (arr_le tvals (t0' + len))) in
  ret (idx0, (i1 + 1)%nat).

(** [if not self.phaselock: tvals = tvals.copy() - tvals[idx0]]. *)
Definition shift_origin (phaselock : bool) (tvals : array) (idx0 : nat)
    : result array :=
  if phaselock then ret tvals
  else let* t := getitem tvals idx0 in ret (arr_sub_scalar tvals t).

(** ** Keyword arguments *)

Inductive value : Type :=
| VNum (r : R)
| VBool (b : bool)
| VStr (s : string).

(** [kw.pop(key, default)] read at the type of the attribute it is stored
    in; the key is removed from the dictionary.  Keyword arguments are
    taken well typed: a value of another type is outside this model and
    reads as the default. *)
Definition pop_num (kw : gmap string value) (key : string) (default : R)
    : R * gmap string value :=
  (match kw !! key with Some (VNum r) => r | _ => default end,
   delete key kw).

Definition pop_bool (kw : gmap string value) (key : string) (default : bool)
    : bool * gmap string value :=
  (match kw !! key with Some (VBool b) => b | _ => default end,
   delete key kw).

Definition pop_str (kw : gmap string value) (key : string) (default : string)
    : string * gmap string value :=
  (match kw !! key with Some (VStr s) => s | _ => default end,
   delete key kw).

(** [gauss_env -= (gauss_env[0]+gauss_env[-1])/2.], the step under the
    source comment "substract offsets". *)
Definition subtract_offsets (env : array) : result array :=
  let* first := getitem env 0 in
  let* final := getitem_last env in
  ret (arr_sub_scalar env ((first + final) / 2)).

(** [self.amplitude*np.exp(-(0.5 * ((t-mu)**2) / self.sigma**2))].
    At [sigma = 0] the code divides by zero and yields nan (or zero away
    from [mu]); the model, over the reals, is faithful for [sigma ≠ 0]
    only, and a property that asserts a value of the envelope carries
    that hypothesis. *)
Definition gauss (amplitude sigma mu : R) (t : array) : array :=
  map (λ ti, amplitude * exp (- (0.5 * (ti - mu) ^ 2 / sigma ^ 2))) t.

(** [self.motzoi * -1 * (t-mu)/(self.sigma**1) * gauss_env]; faithful
    for [sigma ≠ 0] only, as [gauss]. *)
Definition deriv_gauss (motzoi sigma mu : R) (t gauss_env : array) : array :=
  zip_with (λ ti g, motzoi * -1 * (ti - mu) / sigma ^ 1 * g) t gauss_env.

(** ** Block pulse with IQ modulation

    [super().__init__(name)] belongs to the base class [Pulse] of
    [pulse.py]; of what it sets, the records of the two classes deriving
    from it keep the name.  [Mux_DRAG_pulse.__init__] sets the base
    attributes itself and its record has them all. *)

Module MW_IQmod_pulse.

Record t : Type := mk {
  name : string;
  I_channel : string;
  Q_channel : string;
  channels : list string;
  mod_frequency : R;
  amplitude : R;
  length : R;
  phase : R;
  phaselock : bool;
  alpha : R;
  phi_skew : R
}.

Definition init (name I_channel Q_channel : string)
    (kw : gmap string value) : t :=
  let '(mod_frequency, kw) := pop_num kw "mod_frequency" 1e6 in
  let '(amplitude, kw) := pop_num kw "amplitude" 0.1 in
  let '(length, kw) := pop_num kw "length" 1e-6 in
  let '(phase, kw) := pop_num kw "phase" 0 in
  let '(phaselock, kw) := pop_bool kw "phaselock" true in
  let '(alpha, kw) := pop_num kw "alpha" 1 in
  let '(phi_skew, kw) := pop_num kw "phi_skew" 0 in
  mk name I_channel Q_channel [I_channel; Q_channel]
     mod_frequency amplitude length phase phaselock alpha phi_skew.

Definition call (self : t) (kw : gmap string value) : t :=
  let '(mod_frequency, kw) := pop_num kw "mod_frequency" (mod_frequency self) in
  let '(amplitude, kw) := pop_num kw "amplitude" (amplitude self) in
  let '(length, kw) := pop_num kw "length" (length self) in
  let '(phase, kw) := pop_num kw "phase" (phase self) in
  let '(phaselock, kw) := pop_bool kw "phaselock" (phaselock self) in
  let '(alpha, kw) := pop_num kw "alpha" (alpha self) in
  let '(phi_skew, kw) := pop_num kw "phi_skew" (phi_skew self) in
  mk (name self) (I_channel self) (Q_channel self) (channels self)
     mod_frequency amplitude length phase phaselock alpha phi_skew.

Definition chan_wf (self : t) (chan : string) (tvals : array)
    : result array :=
  let* (idx0, idx1) := active_window tvals (length self) in
  let wf := np_zeros (Datatypes.length tvals) in
  let* tvals := shift_origin (phaselock self) tvals idx0 in
  let* (I_mod, Q_mod) :=
    apply_modulation
      (np_ones (Datatypes.length tvals)) (np_zeros (Datatypes.length tvals))
      (slice tvals idx0 idx1)
      (mod_frequency self) (phase self) (phi_skew self) (alpha self) in
  if decide (chan = I_channel self) then iadd_slice wf idx0 idx1 I_mod
  else if decide (chan = Q_channel self) then iadd_slice wf idx0 idx1 Q_mod
  else ret wf.

(** The same pulse with another amplitude. *)
Definition with_amplitude (a : R) (self : t) : t :=
  mk (name self) (I_channel self) (Q_channel self) (channels self)
     (mod_frequency self) a (length self) (phase self) (phaselock self)
     (alpha self) (phi_skew self).

End MW_IQmod_pulse.

(** ** Gaussian pulse with derivative quadrature, SSB modulated *)

Module SSB_DRAG_pulse.

Record t : Type := mk {
  name : string;
  I_channel : string;
  Q_channel : string;
  channels : list string;
  amplitude : R;
  sigma : R;
  nr_sigma : R;
  motzoi : R;
  mod_frequency : R;
  phase : R;
  phaselock : bool;
  alpha : R;
  phi_skew : R;
  length : R
}.

Definition init (name I_channel Q_channel : string)
    (kw : gmap string value) : t :=
  let '(amplitude, kw) := pop_num kw "amplitude" 0.1 in
  let '(sigma, kw) := pop_num kw "sigma" 0.25e-6 in
  let '(nr_sigma, kw) := pop_num kw "nr_sigma" 4 in
  let '(motzoi, kw) := pop_num kw "motzoi" 0 in
  let '(mod_frequency, kw) := pop_num kw "mod_frequency" 1e6 in
  let '(phase, kw) := pop_num kw "phase" 0 in
  let '(phaselock, kw) := pop_bool kw "phaselock" true in
  let '(alpha, kw) := pop_num kw "alpha" 1 in
  let '(phi_skew, kw) := pop_num kw "phi_skew" 0 in
  mk name I_channel Q_channel [I_channel; Q_channel]
     amplitude sigma nr_sigma motzoi mod_frequency phase phaselock
     alpha phi_skew (sigma * nr_sigma).

Definition call (self : t) (kw : gmap string value) : t :=
  let '(amplitude, kw) := pop_num kw "amplitude" (amplitude self) in
  let '(sigma, kw) := pop_num kw "sigma" (sigma self) in
  let '(nr_sigma, kw) := pop_num kw "nr_sigma" (nr_sigma self) in
  let '(motzoi, kw) := pop_num kw "motzoi" (motzoi self) in
  let '(mod_frequency, kw) := pop_num kw "mod_frequency" (mod_frequency self) in
  let '(phase, kw) := pop_num kw "phase" (phase self) in
  let '(phaselock, kw) := pop_bool kw "phaselock" (phaselock self) in
  mk (name self) (I_channel self) (Q_channel self) (channels self)
     amplitude sigma nr_sigma motzoi mod_frequency phase phaselock
     (alpha self) (phi_skew self) (sigma * nr_sigma).

Definition chan_wf_with (modulate : transform)
    (self : t) (chan : string) (tvals : array) : result array :=
  let* (idx0, idx1) := active_window tvals (length self) in
  let wf := np_zeros (Datatypes.length tvals) in
  let* t0 := getitem tvals 0 in
  let t := arr_sub_scalar tvals t0 in
  let mu := length self / 2.0 in
  let* tvals := shift_origin (phaselock self) tvals idx0 in
  let gauss_env := gauss (amplitude self) (sigma self) mu t in
  let deriv_gauss_env :=
    deriv_gauss (motzoi self) (sigma self) mu t gauss_env in
  let* gauss_env := subtract_offsets gauss_env in
  let* deriv_gauss_env := subtract_offsets deriv_gauss_env in
  let* wf :=
    if decide (chan = I_channel self) then
      let* (I_mod, Q_mod) :=
        modulate gauss_env deriv_gauss_env (slice tvals idx0 idx1)
          (mod_frequency self) (phase self) (phi_skew self) (alpha self) in
      iadd_slice wf idx0 idx1 I_mod
    else ret wf in
  let* wf :=
    if decide (chan = Q_channel self) then
      let* (I_mod, Q_mod) :=
        modulate gauss_env deriv_gauss_env (slice tvals idx0 idx1)
          (mod_frequency self) (phase self) (phi_skew self) (alpha self) in
      iadd_slice wf idx0 idx1 Q_mod
    else ret wf in
  ret wf.

Definition chan_wf : t → string → array → result array :=
  chan_wf_with apply_modulation.

(** The same pulse with another amplitude. *)
Definition with_amplitude (a : R) (self : t) : t :=
  mk (name self) (I_channel self) (Q_channel self) (channels self)
     a (sigma self) (nr_sigma self) (motzoi self)
     (mod_frequency self) (phase self) (phaselock self)
     (alpha self) (phi_skew self) (length self).

End SSB_DRAG_pulse.

(** ** Multiplexed DRAG pulse on four channels *)

Module Mux_DRAG_pulse.

Record t : Type := mk {
  name : string;
  start_offset : R;
  stop_offset : R;
  _t0 : option R;
  _clock : option R;
  GI_channel : string;
  GQ_channel : string;
  DI_channel : string;
  DQ_channel : string;
  channels : list string;
  amplitude : R;
  sigma : R;
  nr_sigma : R;
  motzoi : R;
  mod_frequency : R;
  phase : R;
  phaselock : bool;
  G_alpha : R;
  G_phi_skew : R;
  D_alpha : R;
  D_phi_skew : R;
  length : R
}.

Definition init (name GI_channel GQ_channel DI_channel DQ_channel : string)
    (kw : gmap string value) : t :=
  let '(amplitude, kw) := pop_num kw "amplitude" 0.1 in
  let '(sigma, kw) := pop_num kw "sigma" 0.25e-6 in
  let '(nr_sigma, kw) := pop_num kw "nr_sigma" 4 in
  let '(motzoi, kw) := pop_num kw "motzoi" 1 in
  let '(mod_frequency, kw) := pop_num kw "mod_frequency" 1e6 in
  let '(phase, kw) := pop_num kw "phase" 0 in
  let '(phaselock, kw) := pop_bool kw "phaselock" true in
  let '(G_alpha, kw) := pop_num kw "G_alpha" 1 in
  let '(G_phi_skew, kw) := pop_num kw "G_phi_skew" 0 in
  let '(D_alpha, kw) := pop_num kw "D_alpha" 1 in
  let '(D_phi_skew, kw) := pop_num kw "D_phi_skew" 0 in
  mk name 0 0 None None GI_channel GQ_channel DI_channel DQ_channel
     [GI_channel; GQ_channel; DI_channel; DQ_channel]
     amplitude sigma nr_sigma motzoi mod_frequency phase phaselock
     G_alpha G_phi_skew D_alpha D_phi_skew (sigma * nr_sigma).

(** The constructor's defaults for the four channel names. *)
Definition init_default (name : string) (kw : gmap string value) : t :=
  init name "ch1" "ch2" "ch3" "ch4" kw.

Definition call (self : t) (kw : gmap string value) : t :=
  let '(GI_channel, kw) := pop_str kw "GI_channel" (GI_channel self) in
  let '(GQ_channel, kw) := pop_str kw "GQ_channel" (GQ_channel self) in
  let '(DI_channel, kw) := pop_str kw "DI_channel" (DI_channel self) in
  let '(DQ_channel, kw) := pop_str kw "DQ_channel" (DQ_channel self) in
  let channels := [GI_channel; GQ_channel; DI_channel; DQ_channel] in
  let '(amplitude, kw) := pop_num kw "amplitude" (amplitude self) in
  let '(sigma, kw) := pop_num kw "sigma" (sigma self) in
  let '(nr_sigma, kw) := pop_num kw "nr_sigma" (nr_sigma self) in
  let '(mod_frequency, kw) := pop_num kw "mod_frequency" (mod_frequency self) in
  let '(phase, kw) := pop_num kw "phase" (phase self) in
  let '(phaselock, kw) := pop_bool kw "phaselock" (phaselock self) in
  let '(G_alpha, kw) := pop_num kw "G_alpha" (G_alpha self) in
  let '(G_phi_skew, kw) := pop_num kw "G_phi_skew" (G_phi_skew self) in
  let '(D_alpha, kw) := pop_num kw "D_alpha" (D_alpha self) in
  let '(D_phi_skew, kw) := pop_num kw "D_phi_skew" (D_phi_skew self) in
  mk (name self) (start_offset self) (stop_offset self)
     (_t0 self) (_clock self)
     GI_channel GQ_channel DI_channel DQ_channel channels
     amplitude sigma nr_sigma (motzoi self) mod_frequency phase phaselock
     G_alpha G_phi_skew D_alpha D_phi_skew (sigma * nr_sigma).

Definition chan_wf_with (modulate : transform)
    (self : t) (chan : string) (tvals : array) : result array :=
  let* (idx0, idx1) := active_window tvals (length self) in
  let wf := np_zeros (Datatypes.length tvals) in
  let* t0 := getitem tvals 0 in
  let t := arr_sub_scalar tvals t0 in
  let mu := length self / 2.0 in
  let* tvals := shift_origin (phaselock self) tvals idx0 in
  let gauss_env := gauss (amplitude self) (sigma self) mu t in
  if decide (chan ∈ [GI_channel self; GQ_channel self]) then
    let* gauss_env := subtract_offsets gauss_env in
    let* (I_mod, Q_mod) :=
      modulate gauss_env (np_zeros (Datatypes.length tvals))
        (slice tvals idx0 idx1)
        (mod_frequency self) (phase self)
        (G_phi_skew self) (G_alpha self) in
    if decide (chan = GI_channel self) then iadd_slice wf idx0 idx1 I_mod
    else iadd_slice wf idx0 idx1 Q_mod
  else if decide (chan ∈ [DI_channel self; DQ_channel self]) then
    let der_env := deriv_gauss (motzoi self) (sigma self) mu t gauss_env in
    let* der_env := subtract_offsets der_env in
    let* (I_mod, Q_mod) :=
      modulate (np_zeros (Datatypes.length tvals)) der_env
        (slice tvals idx0 idx1)
        (mod_frequency self) (phase self)
        (D_phi_skew self) (D_alpha self) in
    if decide (chan = DI_channel self) then iadd_slice wf idx0 idx1 I_mod
    else iadd_slice wf idx0 idx1 Q_mod
  else ret wf.

Definition chan_wf : t → string → array → result array :=
  chan_wf_with apply_modulation.

(** The same pulse with another amplitude. *)
Definition with_amplitude (a : R) (self : t) : t :=
  mk (name self) (start_offset self) (stop_offset self)
     (_t0 self) (_clock self)
     (GI_channel self) (GQ_channel self) (DI_channel self) (DQ_channel self)
     (channels self) a (sigma self) (nr_sigma self) (motzoi self)
     (mod_frequency self) (phase self) (phaselock self)
     (G_alpha self) (G_phi_skew self) (D_alpha self) (D_phi_skew self)
     (length self).

End Mux_DRAG_pulse.

(** ** The pulse interface

    The three classes under one type, with the two operations every
    pulse offers: reconfiguration ([__call__]) and [chan_wf]. *)

Module Pulse.

Inductive t : Type :=
| MW (p : MW_IQmod_pulse.t)
| SSB (p : SSB_DRAG_pulse.t)
| Mux (p : Mux_DRAG_pulse.t).

Definition call (self : t) (kw : gmap string value) : t :=
  match self with
  | MW p => MW (MW_IQmod_pulse.call p kw)
  | SSB p => SSB (SSB_DRAG_pulse.call p kw)
  | Mux p => Mux (Mux_DRAG_pulse.call p kw)
  end.

Definition chan_wf (self : t) (chan : string) (tvals : array)
    : result array :=
  match self with
  | MW p => MW_IQmod_pulse.chan_wf p chan tvals
  | SSB p => SSB_DRAG_pulse.chan_wf p chan tvals
  | Mux p => Mux_DRAG_pulse.chan_wf p chan tvals
  end.

Definition channels (self : t) : list string :=
  match self with
  | MW p => MW_IQmod_pulse.channels p
  | SSB p => SSB_DRAG_pulse.channels p
  | Mux p => Mux_DRAG_pulse.channels p
  end.

Definition with_amplitude (a : R) (self : t) : t :=
  match self with
  | MW p => MW (MW_IQmod_pulse.with_amplitude a p)
  | SSB p => SSB (SSB_DRAG_pulse.with_amplitude a p)
  | Mux p => Mux (Mux_DRAG_pulse.with_amplitude a p)
  end.

(** The pulse instances a program can hold: built by a constructor,
    then reconfigured any number of times. *)
Inductive instance : t → Prop :=
| new_MW name I_channel Q_channel kw :
    instance (MW (MW_IQmod_pulse.init name I_channel Q_channel kw))
| new_SSB name I_channel Q_channel kw :
    instance (SSB (SSB_DRAG_pulse.init name I_channel Q_channel kw))
| new_Mux name GI_channel GQ_channel DI_channel DQ_channel kw :
    instance (Mux (Mux_DRAG_pulse.init name GI_channel GQ_channel
                     DI_channel DQ_channel kw))
| reconfigured self kw :
    instance self → instance (call self kw).

End Pulse.

(** ** Instances and bound method calls

    A pulse is a mutable object: [__call__] updates it in place and ends
    in [return self].  Instances live in a store indexed by reference; a
    call yields the updated store and the reference it returns. *)
Definition invoke {T : Type} (method : T → gmap string value → T)
    (heap : gmap nat T) (self : nat) (kw : gmap string value)
    : option (gmap nat T * nat) :=
  match heap !! self with
  | Some obj => Some (<[self := method obj kw]> heap, self)
  | None => None
  end.






(** ** The offset subtraction in binary64

    The arrays of the code hold IEEE 754 binary64 numbers.  Everything
    above computes over the reals; the offset subtraction alone is also
    given over binary64, with the operations of the standard library's
    specification of IEEE arithmetic (precision 53, maximal exponent
    1024, rounding to nearest even), to see what rounding does to it. *)
Module binary64.

Definition t : Type := spec_float.




Definition eqb : t → t → bool := SFeqb.




End binary64.




(** ** Auxiliary notions used in the statements *)

(** The tail of every branch of [chan_wf]: transform the envelopes over
    the window and add one of the two outputs into the waveform. *)
Definition modulate_into (pick_I : bool) (wf : array) (idx0 idx1 : nat)
    (I_env Q_env tvals : array) (f ph phi_skew alpha : R) : result array :=
  let* r := apply_modulation I_env Q_env (slice tvals idx0 idx1)
              f ph phi_skew alpha in
  iadd_slice wf idx0 idx1 (if pick_I then r.1 else r.2).

(** One sample of the waveform written for the I or the Q output. *)
Definition sample_at (pick_I : bool) (f ph phi_skew alpha : R)
    (t env_I env_Q : R) : R :=
  let x := 2 * PI * f * t + deg2rad ph in
  if pick_I then mod_I_at phi_skew x env_I env_Q
  else mod_Q_at phi_skew alpha x env_I env_Q.





(** What holds of every instance of the Gaussian family: the duration is
    derived, and so is the channel list of the multiplexed pulse. *)
Definition derived_ok (p : Pulse.t) : Prop :=
  match p with
  | Pulse.MW _ => True
  | Pulse.SSB s =>
      SSB_DRAG_pulse.length s
      = SSB_DRAG_pulse.sigma s * SSB_DRAG_pulse.nr_sigma s
  | Pulse.Mux x =>
      Mux_DRAG_pulse.length x
      = Mux_DRAG_pulse.sigma x * Mux_DRAG_pulse.nr_sigma x
      ∧ Mux_DRAG_pulse.channels x
        = [Mux_DRAG_pulse.GI_channel x; Mux_DRAG_pulse.GQ_channel x;
           Mux_DRAG_pulse.DI_channel x; Mux_DRAG_pulse.DQ_channel x]
  end.

(** The default pulses: constructors called without keyword arguments. *)
Definition default_MW : MW_IQmod_pulse.t :=
  MW_IQmod_pulse.init "LO" "ch1" "ch2" ∅.

Definition default_SSB : SSB_DRAG_pulse.t :=
  SSB_DRAG_pulse.init "X180" "ch1" "ch2" ∅.

Definition default_Mux : Mux_DRAG_pulse.t :=
  Mux_DRAG_pulse.init_default "X180" ∅.

(** A grid of three samples, one microsecond apart: the default pulses
    last one microsecond, so the third sample lies outside the window. *)
Definition grid_3us : array := [0; 1e-6; 2e-6].

(** A Gaussian pulse without derivative weight and without carrier, at a
    quarter-turn phase. *)
Definition quarter_turn_pulse : SSB_DRAG_pulse.t :=
  SSB_DRAG_pulse.mk "X90" "ch1" "ch2" ["ch1"; "ch2"]
    1 1 2 0 0 90 true 1 0 (1 * 2).

(** ** Attributes read through the pulse interface *)

Definition duration (p : Pulse.t) : R :=
  match p with
  | Pulse.MW x => MW_IQmod_pulse.length x
  | Pulse.SSB x => SSB_DRAG_pulse.length x
  | Pulse.Mux x => Mux_DRAG_pulse.length x
  end.

Definition is_phaselocked (p : Pulse.t) : bool :=
  match p with
  | Pulse.MW x => MW_IQmod_pulse.phaselock x
  | Pulse.SSB x => SSB_DRAG_pulse.phaselock x
  | Pulse.Mux x => Mux_DRAG_pulse.phaselock x
  end.

(** The channel attributes of a pulse, in the order of its class. *)
Definition channel_attributes (p : Pulse.t) : list string :=
  match p with
  | Pulse.MW x => [MW_IQmod_pulse.I_channel x; MW_IQmod_pulse.Q_channel x]
  | Pulse.SSB x => [SSB_DRAG_pulse.I_channel x; SSB_DRAG_pulse.Q_channel x]
  | Pulse.Mux x =>
      [Mux_DRAG_pulse.GI_channel x; Mux_DRAG_pulse.GQ_channel x;
       Mux_DRAG_pulse.DI_channel x; Mux_DRAG_pulse.DQ_channel x]
  end.

(** A waveform multiplied by a scalar, an exception passing through. *)
Definition wf_scale (k : R) (r : result array) : result array :=
  let* wf := r in ret (map (Rmult k) wf).

(** The time axis the carrier is evaluated on: the grid itself under
    phase lock, the grid counted from its first sample otherwise. *)
Definition carrier_times (phaselock : bool) (tvals : array) (t0 : R) : array :=
  if phaselock then tvals else arr_sub_scalar tvals t0.

(** ** Constructor calls *)

(** The positional arguments of a constructor call, one case per class. *)
Inductive constructor : Type :=
| Construct_MW (name I_channel Q_channel : string)
| Construct_SSB (name I_channel Q_channel : string)
| Construct_Mux (name GI_channel GQ_channel DI_channel DQ_channel : string).

Definition construct (c : constructor) (kw : gmap string value) : Pulse.t :=
  match c with
  | Construct_MW n ch_I ch_Q => Pulse.MW (MW_IQmod_pulse.init n ch_I ch_Q kw)
  | Construct_SSB n ch_I ch_Q =>
      Pulse.SSB (SSB_DRAG_pulse.init n ch_I ch_Q kw)
  | Construct_Mux n GI GQ DI DQ =>
      Pulse.Mux (Mux_DRAG_pulse.init n GI GQ DI DQ kw)
  end.

(** The keywords that [__init__] and [__call__] of a class do not both
    read: the former reads and the latter ignores [alpha], [phi_skew]
    (single DRAG) and [motzoi] (multiplexed); the latter alone reads the
    channel keywords of the multiplexed pulse. *)
Definition unshared_keys (c : constructor) : list string :=
  match c with
  | Construct_MW _ _ _ => []
  | Construct_SSB _ _ _ => ["alpha"; "phi_skew"]
  | Construct_Mux _ _ _ _ _ =>
      ["motzoi"; "GI_channel"; "GQ_channel"; "DI_channel"; "DQ_channel"]
  end.

(** * The heterodyne instrument

    Shallow embedding of the numeric and decision code of
    [pycqed/instrument_drivers/meta_instrument/heterodyne.py], class
    [HeterodyneInstrument]. *)

(** Elementwise arithmetic of two 1-d arrays under numpy's broadcasting. *)
Definition arr_binop (op : R → R → R) (a b : array) : result array :=
  let* n := broadcast_len (length a) (length b) in
  ret (zip_with op (broadcast_to n a) (broadcast_to n b)).

(** [-a]. *)
Definition arr_neg (a : array) : array := map Ropp a.

(** [np.average(a)] of a 1-d array: the sum over the number of samples. *)
Definition np_average (a : array) : R := foldr Rplus 0 a / INR (length a).

(** [np.arange(start, stop, step)] for integers and a positive step. *)
Definition np_arange (start stop step : Z) : list Z :=
  map (λ i, (start + step * Z.of_nat i)%Z)
    (seq 0 (Z.to_nat ((stop - start + step - 1) / step))).

(** [np.floor]. *)
Definition np_floor (x : R) : R := IZR (Int_part x).

Module HeterodyneInstrument.

(** What a method of the instrument can raise: a missing attribute, or an
    exception of the array arithmetic. *)
Inductive error : Type :=
| AttributeError (attribute : string)
| Raised (e : exn).

Definition outcome (A : Type) : Type := (error + A)%type.

Definition and_then {A B : Type} (m : outcome A) (k : A → outcome B)
    : outcome B :=
  match m with
  | inl e => inl e
  | inr a => k a
  end.

(** Reading an attribute that may not have been assigned yet. *)
Definition getattr {A : Type} (attribute : string) (v : option A)
    : outcome A :=
  match v with
  | Some a => inr a
  | None => inl (AttributeError attribute)
  end.

Definition lift {A : Type} (r : result A) : outcome A :=
  match r with
  | inl e => inl (Raised e)
  | inr a => inr a
  end.

(** A signal source as far as the driver uses it: a store of the
    parameters the driver sets and gets.  The sources are instruments
    outside this repository; they are taken to report what was last
    written to them. *)
Record source : Type := mk_source {
  frequency : R;
  status : string
}.

(** The instrument: its two sources, the value of the manual parameter
    [f_RO_mod], and the attributes its methods assign or read.  An
    attribute that no method has assigned yet is [None]. *)
Record t : Type := mk {
  RF : source;
  LO : source;
  f_RO_mod : R;
  _frequency : option R;
  _f_RO_mod : option R;
  _single_sideband_demod : option bool;
  cosI : option array;
  sinI : option array
}.

Definition do_set_frequency (self : t) (val : R) : t :=
  mk (mk_source val (status (RF self)))
     (mk_source (val - f_RO_mod self) (status (LO self)))
     (f_RO_mod self) (Some val) (_f_RO_mod self)
     (_single_sideband_demod self) (cosI self) (sinI self).

(** The frequency read back, with the warnings logged on the way. *)
Definition do_get_frequency (self : t) : R * list string :=
  let freq := frequency (RF self) in
  let LO_freq := frequency (LO self) in
  (freq,
   if decide (LO_freq ≠ freq - f_RO_mod self)
   then ["f_RO_mod between RF and LO is not set correctly"]
   else []).

(** The instrument with another value of the manual parameter
    [f_RO_mod], everything else as it is. *)
Definition with_f_RO_mod (self : t) (val : R) : t :=
  mk (RF self) (LO self) val (_frequency self) (_f_RO_mod self)
     (_single_sideband_demod self) (cosI self) (sinI self).

Definition do_get_status (self : t) : string :=
  if String.prefix "On" (status (LO self))
     && String.prefix "On" (status (RF self))
  then "On"
  else if String.prefix "Off" (status (LO self))
          && String.prefix "Off" (status (RF self))
  then "Off"
  else "LO: " +:+ status (LO self) +:+ ", RF: " +:+ status (RF self).

(** The CBox branch of [prepare]: the integration weights
    [floor(127·cos(2π·f_RO_mod·tbase))] and the same with [sin], over
    512 samples spaced 5 ns, as handed to [sig0_integration_weights] and
    [sig1_integration_weights]. *)
Definition CBox_weights (self : t) : array * array :=
  let trace_length := 512%Z in
  let tbase := map (λ n, IZR n * 1e-9) (np_arange 0 (5 * trace_length) 5) in
  (map (λ tb, np_floor (127 * cos (2 * PI * f_RO_mod self * tb))) tbase,
   map (λ tb, np_floor (127 * sin (2 * PI * f_RO_mod self * tb))) tbase).

(** The complex point [I + 1.j*Q] is the pair [(I, Q)]. *)
Definition demodulate_data (self : t) (dat : list array) : outcome (R * R) :=
  and_then (getattr "_f_RO_mod" (_f_RO_mod self)) (λ f,
  if decide (f ≠ 0) then
    and_then (getattr "_single_sideband_demod" (_single_sideband_demod self))
    (λ ssb,
    if ssb then
      and_then (getattr "cosI" (cosI self)) (λ c,
      and_then (lift (getitem dat 0)) (λ d0,
      and_then (lift (arr_binop Rmult c d0)) (λ cd0,
      and_then (getattr "sinI" (sinI self)) (λ s,
      and_then (lift (getitem dat 1)) (λ d1,
      and_then (lift (arr_binop Rmult s d1)) (λ sd1,
      and_then (lift (arr_binop Rplus cd0 sd1)) (λ sum_I,
      let I := np_average sum_I in
      and_then (lift (arr_binop Rmult (arr_neg s) d0)) (λ nsd0,
      and_then (lift (arr_binop Rmult c d1)) (λ cd1,
      and_then (lift (arr_binop Rplus nsd0 cd1)) (λ sum_Q,
      let Q := np_average sum_Q in
      inr (I, Q)))))))))))
    else
      and_then (lift (getitem dat 0)) (λ d0,
      and_then (getattr "cosI" (cosI self)) (λ c,
      and_then (lift (arr_binop Rmult d0 c)) (λ d0c,
      let I := 2 * np_average d0c in
      and_then (getattr "sinI" (sinI self)) (λ s,
      and_then (lift (arr_binop Rmult d0 s)) (λ d0s,
      let Q := 2 * np_average d0s in
      inr (I, Q)))))))
  else
    and_then (lift (getitem dat 0)) (λ d0,
    let I := np_average d0 in
    and_then (lift (getitem dat 1)) (λ d1,
    let Q := np_average d1 in
    inr (I, Q)))).

End HeterodyneInstrument.

(** The two input channels [dat[0]] and [dat[1]] when they carry the
    complex amplitude [a + ib] on the carrier whose samples are [c]
    (cosine) and [s] (sine): [a·c − b·s] and [a·s + b·c]. *)
Definition channel_0 (a b : R) (c s : array) : array :=
  zip_with (λ ck sk, a * ck - b * sk) c s.

Definition channel_1 (a b : R) (c s : array) : array :=
  zip_with (λ ck sk, a * sk + b * ck) c s.

(** An instrument set to single-sideband demodulation on a two-sample
    carrier. *)
Definition two_sample_instrument : HeterodyneInstrument.t :=
  HeterodyneInstrument.mk
    (HeterodyneInstrument.mk_source 0 "On")
    (HeterodyneInstrument.mk_source 0 "On")
    1 None (Some 1) (Some true) (Some [1; 0]) (Some [0; 1]).

(** * Helpers of the demonstrator

    [pycqed/measurement/demonstrator_helper/simulation_helpers.py]. *)

(** [s.split("/")]: the pieces of [s] between its slashes, at least one. *)
Fixpoint split_slash (s : string) : list string :=
  match s with
  | EmptyString => [EmptyString]
  | String c s' =>
      if Ascii.eqb c "/"%char then EmptyString :: split_slash s'
      else match split_slash s' with
           | piece :: pieces => String c piece :: pieces
           | [] => [String c EmptyString]
           end
  end.

(** How [_retrieve_file_from_url] can end in an exception: in the
    indexing [split("/")[-1]], or inside [urlretrieve]. *)
Inductive retrieve_error (E : Type) : Type :=
| Indexing (e : exn)
| Download (e : E).

Arguments Indexing {E} e.
Arguments Download {E} e.

Section retrieve.
(** The package directory [pq.__path__[0]], [os.path.join], which
    depends on the platform, and [urllib.request.urlretrieve], which
    talks to the network and the file system, are taken as given.
    [urlretrieve url filename] either returns or raises an exception of
    some type [E]; what it returns is not used. *)
Variable pq_path : string.
Variable os_path_join : list string → string.
Variable E : Type.
Variable urlretrieve : string → string → E + unit.

Definition _retrieve_file_from_url (file_url : string)
    : retrieve_error E + string :=
  match getitem_last (split_slash file_url) with
  | inl e => inl (Indexing e)
  | inr file_name =>
      let base_path :=
        os_path_join [pq_path; "measurement"; "demonstrator_helper";
                      "qasm_files"; file_name] in
      let file_path := base_path in
      match urlretrieve file_url file_path with
      | inl e => inl (Download e)
      | inr _ => inr file_path
      end
  end.

End retrieve.

(** * Properties *)

(** ** The error monad *)


Lemma bind_inr {A B : Type} (a : A) (k : A → result B) : bind (inr a) k = k a.
Proof. done. Qed.

(** ** Arrays *)

Lemma length_np_zeros n : length (np_zeros n) = n.
Proof. apply length_replicate. Qed.

Lemma length_arr_sub_scalar a x : length (arr_sub_scalar a x) = length a.
Proof. apply length_map. Qed.

Lemma length_gauss amplitude sigma mu t :
  length (gauss amplitude sigma mu t) = length t.
Proof. apply length_map. Qed.

Lemma length_deriv_gauss motzoi sigma mu t g :
  length g = length t → length (deriv_gauss motzoi sigma mu t g) = length t.
Proof. intros Hg. unfold deriv_gauss. rewrite length_zip_with. lia. Qed.

Lemma length_map3 {A B C D : Type} (f : A → B → C → D) a b c n :
  length a = n → length b = n → length c = n →
  length (map3 f a b c) = n.
Proof.
  revert b c n.
  induction a as [|x a IH]; intros [|y b] [|z c] [|n]; simpl; try done.
  intros [= Ha] [= Hb] [= Hc]. f_equal. by apply IH.
Qed.

Lemma map3_ext {A B C D : Type} (f g : A → B → C → D) a b c :
  (∀ x y z, f x y z = g x y z) → map3 f a b c = map3 g a b c.
Proof.
  intros Hfg. revert b c.
  induction a as [|x a IH]; intros [|y b] [|z c]; simpl; try done.
  by rewrite Hfg, IH.
Qed.

Lemma map3_map_l {A A' B C D : Type} (h : A' → A) (f : A → B → C → D) a b c :
  map3 f (map h a) b c = map3 (λ x, f (h x)) a b c.
Proof.
  revert b c. induction a as [|x a IH]; intros [|y b] [|z c]; simpl; try done.
  by rewrite IH.
Qed.

Lemma zip_with_zeros_l n (v : array) :
  length v = n → zip_with Rplus (np_zeros n) v = v.
Proof.
  revert n. induction v as [|x v IH]; intros [|n]; simpl; try done.
  intros [= Hn]. unfold np_zeros in IH. rewrite IH by done.
  by rewrite Rplus_0_l.
Qed.

Lemma slice_full {A : Type} (a : list A) : slice a 0 (length a) = a.
Proof. unfold slice. rewrite Nat.sub_0_r, drop_0. apply firstn_all. Qed.

Lemma length_slice_0 {A : Type} (a : list A) j :
  (j ≤ length a)%nat → length (slice a 0 j) = j.
Proof.
  intros Hj. unfold slice. rewrite Nat.sub_0_r, drop_0, length_take. lia.
Qed.

Lemma broadcast_len_same n : broadcast_len n n = ret n.
Proof. unfold broadcast_len. by rewrite decide_True. Qed.

Lemma broadcast_to_same n (a : array) : length a = n → broadcast_to n a = a.
Proof. intros Hn. unfold broadcast_to. by rewrite decide_True. Qed.

Lemma length_broadcast_to n (a : array) :
  length a = n ∨ length a = 1%nat → length (broadcast_to n a) = n.
Proof.
  unfold broadcast_to. intros Hn. case_decide; [done|].
  destruct Hn as [?|Hn]; [done|].
  destruct a as [|x [|y a]]; simpl in *; try done.
  apply length_replicate.
Qed.

Lemma iadd_slice_full (wf v : array) :
  length v = length wf →
  iadd_slice wf 0 (length wf) v = ret (zip_with Rplus wf v).
Proof.
  intros Hv. unfold iadd_slice. rewrite slice_full.
  rewrite decide_True by auto. rewrite broadcast_to_same by done.
  simpl. rewrite drop_all. by rewrite app_nil_r.
Qed.

(** The transform on operands of one common length. *)
Lemma apply_modulation_same_length I_env Q_env tvals f ph phi_skew alpha :
  length I_env = length tvals → length Q_env = length tvals →
  apply_modulation I_env Q_env tvals f ph phi_skew alpha =
  ret (map3 (λ t, mod_I_at phi_skew (2 * PI * f * t + deg2rad ph))
         tvals I_env Q_env,
       map3 (λ t, mod_Q_at phi_skew alpha (2 * PI * f * t + deg2rad ph))
         tvals I_env Q_env).
Proof.
  intros HI HQ. unfold apply_modulation.
  rewrite length_map, HI, broadcast_len_same. simpl.
  rewrite HQ, broadcast_len_same. simpl.
  rewrite !broadcast_to_same by (by rewrite ?length_map).
  by rewrite !map3_map_l.
Qed.

(** ** The active window *)

Lemma np_where_from_bounds i c k :
  k ∈ np_where_from i c → (i ≤ k < i + length c)%nat.
Proof.
  revert i. induction c as [|b c IH]; intros i; simpl.
  - by intros ?%elem_of_nil.
  - destruct b.
    + intros [->|Hk%IH]%elem_of_cons; lia.
    + intros Hk%IH. lia.
Qed.

Lemma last_np_where_from i c :
  last c = Some true →
  last (np_where_from i c) = Some (i + length c - 1)%nat.
Proof.
  revert i. induction c as [|b c IH]; intros i; [done|].
  rewrite last_cons. destruct (last c) as [b'|] eqn:Hc.
  - intros [= ->]. simpl.
    destruct b; [rewrite last_cons|]; rewrite IH by done;
      f_equal; destruct c; simpl in *; try done; lia.
  - intros [= ->]. apply last_None in Hc as ->. simpl. f_equal. lia.
Qed.

Lemma active_window_bounds tvals len idx0 idx1 :
  active_window tvals len = inr (idx0, idx1) →
  idx0 = 0%nat ∧ (1 ≤ idx1 ≤ length tvals)%nat.
Proof.
  unfold active_window. destruct tvals as [|t0 rest]; [done|].
  simpl. rewrite bool_decide_true by lra. simpl.
  unfold getitem_last.
  destruct (last _) as [i1|] eqn:Hlast; [|done].
  simpl. intros [= <- <-]. split; [done|].
  apply last_Some_elem_of, np_where_from_bounds in Hlast.
  simpl in Hlast. unfold arr_le in Hlast. rewrite length_map in Hlast. lia.
Qed.

(** A grid that ends inside the pulse: the window is the whole grid. *)
Lemma active_window_full tvals len t0 tl :
  tvals !! 0%nat = Some t0 → last tvals = Some tl → tl <= t0 + len →
  active_window tvals len = inr (0%nat, length tvals).
Proof.
  intros H0 Hl Hle. unfold active_window.
  destruct tvals as [|t0' rest]; [done|]. simpl in H0. injection H0 as ->.
  cbn [getitem lookup list_lookup bind ret].
  unfold np_where at 1, arr_ge. cbn [map np_where_from].
  rewrite bool_decide_true by lra. cbn [getitem lookup list_lookup bind ret].
  unfold getitem_last, np_where. rewrite last_np_where_from.
  - simpl. unfold ret. do 2 f_equal. unfold arr_le. rewrite length_map. lia.
  - unfold arr_le. change (map ?f ?l) with (f <$> l). rewrite fmap_last, Hl.
    simpl. by rewrite bool_decide_true.
Qed.

Lemma shift_origin_length phaselock (tvals : array) :
  (0 < length tvals)%nat →
  ∃ tvals', shift_origin phaselock tvals 0 = inr tvals'
            ∧ length tvals' = length tvals.
Proof.
  intros Hn. destruct tvals as [|t0 rest]; [simpl in Hn; lia|].
  destruct phaselock.
  - by eexists.
  - eexists. split; [reflexivity|]. apply length_arr_sub_scalar.
Qed.

(** ** Offset subtraction *)

Lemma subtract_offsets_inr (env : array) a b :
  env !! 0%nat = Some a → last env = Some b →
  subtract_offsets env = inr (arr_sub_scalar env ((a + b) / 2)).
Proof.
  intros Ha Hb. unfold subtract_offsets, getitem, getitem_last.
  by rewrite Ha, Hb.
Qed.

Lemma subtract_offsets_nonempty (env : array) :
  (0 < length env)%nat →
  ∃ env', subtract_offsets env = inr env' ∧ length env' = length env.
Proof.
  intros Hn. destruct env as [|a env]; [simpl in Hn; lia|].
  destruct (last (a :: env)) as [b|] eqn:Hb.
  - eexists. split; [by apply subtract_offsets_inr|].
    by rewrite length_arr_sub_scalar.
  - by apply last_None in Hb.
Qed.

Lemma arr_sub_scalar_zeros n x : x = 0 → arr_sub_scalar (np_zeros n) x = np_zeros n.
Proof.
  intros ->. unfold arr_sub_scalar, np_zeros.
  induction n as [|n IH]; simpl; [done|]. rewrite IH. f_equal. lra.
Qed.

Lemma subtract_offsets_zeros n :
  (0 < n)%nat → subtract_offsets (np_zeros n) = inr (np_zeros n).
Proof.
  intros Hn.
  rewrite (subtract_offsets_inr _ 0 0).
  - rewrite arr_sub_scalar_zeros; [done|lra].
  - unfold np_zeros. apply lookup_replicate_2. lia.
  - unfold np_zeros. destruct n as [|n]; [lia|].
    rewrite replicate_S_end. apply last_snoc.
Qed.

Lemma deriv_gauss_motzoi_0 sigma mu (t g : array) :
  length g = length t → deriv_gauss 0 sigma mu t g = np_zeros (length t).
Proof.
  revert g. unfold deriv_gauss, np_zeros.
  induction t as [|ti t IH]; intros [|gi g]; simpl; try done.
  intros [= Hg]. rewrite IH by done. f_equal. unfold Rdiv. ring.
Qed.

(** ** Modulating an envelope pair into the window *)

Lemma modulate_into_I wf idx0 idx1 I_env Q_env tvals f ph phi_skew alpha :
  (let* (I_mod, Q_mod) :=
     apply_modulation I_env Q_env (slice tvals idx0 idx1) f ph phi_skew alpha in
   iadd_slice wf idx0 idx1 I_mod)
  = modulate_into true wf idx0 idx1 I_env Q_env tvals f ph phi_skew alpha.
Proof. unfold modulate_into. by destruct (apply_modulation _ _ _ _ _ _ _) as [|[]]. Qed.

Lemma modulate_into_Q wf idx0 idx1 I_env Q_env tvals f ph phi_skew alpha :
  (let* (I_mod, Q_mod) :=
     apply_modulation I_env Q_env (slice tvals idx0 idx1) f ph phi_skew alpha in
   iadd_slice wf idx0 idx1 Q_mod)
  = modulate_into false wf idx0 idx1 I_env Q_env tvals f ph phi_skew alpha.
Proof. unfold modulate_into. by destruct (apply_modulation _ _ _ _ _ _ _) as [|[]]. Qed.

(** With envelopes as long as the grid, the window must be the whole
    grid: any shorter window is a shape mismatch. *)
Lemma modulate_into_window pick_I idx1 (I_env Q_env tvals : array)
    f ph phi_skew alpha :
  length I_env = length tvals → length Q_env = length tvals →
  (1 ≤ idx1 ≤ length tvals)%nat →
  modulate_into pick_I (np_zeros (length tvals)) 0 idx1
    I_env Q_env tvals f ph phi_skew alpha
  = if decide (idx1 = length tvals)
    then inr (map3 (sample_at pick_I f ph phi_skew alpha) tvals I_env Q_env)
    else inl ValueError.
Proof.
  intros HI HQ Hidx. unfold modulate_into. case_decide as Hfull.
  - subst idx1. rewrite slice_full.
    rewrite apply_modulation_same_length by done. simpl.
    rewrite <- (length_np_zeros (length tvals)) at 2.
    assert (Hlen : ∀ g : R → R → R → R,
      length (map3 g tvals I_env Q_env) = length (np_zeros (length tvals))).
    { intros g. rewrite length_np_zeros. by apply length_map3. }
    destruct pick_I; rewrite iadd_slice_full by apply Hlen;
      (rewrite zip_with_zeros_l by (by rewrite Hlen, length_np_zeros));
      done.
  - unfold apply_modulation.
    rewrite length_map, length_slice_0, HI by lia.
    unfold broadcast_len at 1. rewrite decide_False by lia.
    rewrite decide_False by lia. case_decide as H1; [|done].
    subst idx1. simpl. rewrite HQ, broadcast_len_same. simpl.
    unfold iadd_slice. rewrite length_slice_0 by (rewrite length_np_zeros; lia).
    assert (Hlen : ∀ g : R → R → R → R,
      length (map3 g
        (broadcast_to (length tvals)
           (map (λ t, 2 * PI * f * t + deg2rad ph) (slice tvals 0 1)))
        (broadcast_to (length tvals) I_env)
        (broadcast_to (length tvals) Q_env)) = length tvals).
    { intros g. apply length_map3; apply length_broadcast_to; auto.
      right. rewrite length_map, length_slice_0; lia. }
    destruct pick_I; rewrite Hlen; by rewrite decide_False by lia.
Qed.

(** ** Comparing the single and the multiplexed DRAG pulse *)


Lemma elem_of_pair {A : Type} (x a b : A) : x ∈ [a; b] ↔ x = a ∨ x = b.
Proof.
  rewrite !elem_of_cons. split; [|tauto].
  intros [?|[?|?%elem_of_nil]]; tauto.
Qed.


(** [chan_wf] on an owned channel, with the tail of the branch folded
    into [modulate_into]. *)
Lemma SSB_chan_wf_owned (self : SSB_DRAG_pulse.t) (pick_I : bool) tvals :
  SSB_DRAG_pulse.I_channel self ≠ SSB_DRAG_pulse.Q_channel self →
  SSB_DRAG_pulse.chan_wf self
    (if pick_I then SSB_DRAG_pulse.I_channel self
     else SSB_DRAG_pulse.Q_channel self) tvals
  = let* (idx0, idx1) := active_window tvals (SSB_DRAG_pulse.length self) in
    let* t0 := getitem tvals 0 in
    let t := arr_sub_scalar tvals t0 in
    let mu := SSB_DRAG_pulse.length self / 2.0 in
    let* tvals' := shift_origin (SSB_DRAG_pulse.phaselock self) tvals idx0 in
    let gauss_env :=
      gauss (SSB_DRAG_pulse.amplitude self) (SSB_DRAG_pulse.sigma self) mu t in
    let* gauss_env' := subtract_offsets gauss_env in
    let* deriv_env' :=
      subtract_offsets
        (deriv_gauss (SSB_DRAG_pulse.motzoi self) (SSB_DRAG_pulse.sigma self)
           mu t gauss_env) in
    modulate_into pick_I (np_zeros (length tvals)) idx0 idx1
      gauss_env' deriv_env' tvals'
      (SSB_DRAG_pulse.mod_frequency self) (SSB_DRAG_pulse.phase self)
      (SSB_DRAG_pulse.phi_skew self) (SSB_DRAG_pulse.alpha self).
Proof.
  intros HIQ. unfold SSB_DRAG_pulse.chan_wf, SSB_DRAG_pulse.chan_wf_with.
  destruct (active_window _ _) as [|[idx0 idx1]]; [done|]. cbn [bind].
  destruct (getitem tvals 0) as [|t0]; [done|]. cbn [bind].
  destruct (shift_origin _ _ _) as [|tvals']; [done|]. cbn [bind].
  destruct (subtract_offsets (gauss _ _ _ _)) as [|g']; [done|]. cbn [bind].
  destruct (subtract_offsets (deriv_gauss _ _ _ _ _)) as [|d']; [done|].
  cbn [bind].
  destruct pick_I; repeat case_decide; try congruence.
  - rewrite modulate_into_I.
    by destruct (modulate_into _ _ _ _ _ _ _ _ _ _ _).
  - cbn [ret bind]. rewrite modulate_into_Q.
    by destruct (modulate_into _ _ _ _ _ _ _ _ _ _ _).
Qed.

Lemma Mux_chan_wf_D (self : Mux_DRAG_pulse.t) (pick_I : bool) tvals :
  Mux_DRAG_pulse.DI_channel self ≠ Mux_DRAG_pulse.DQ_channel self →
  Mux_DRAG_pulse.DI_channel self ∉
    [Mux_DRAG_pulse.GI_channel self; Mux_DRAG_pulse.GQ_channel self] →
  Mux_DRAG_pulse.DQ_channel self ∉
    [Mux_DRAG_pulse.GI_channel self; Mux_DRAG_pulse.GQ_channel self] →
  Mux_DRAG_pulse.chan_wf self
    (if pick_I then Mux_DRAG_pulse.DI_channel self
     else Mux_DRAG_pulse.DQ_channel self) tvals
  = let* (idx0, idx1) := active_window tvals (Mux_DRAG_pulse.length self) in
    let* t0 := getitem tvals 0 in
    let t := arr_sub_scalar tvals t0 in
    let mu := Mux_DRAG_pulse.length self / 2.0 in
    let* tvals' := shift_origin (Mux_DRAG_pulse.phaselock self) tvals idx0 in
    let gauss_env :=
      gauss (Mux_DRAG_pulse.amplitude self) (Mux_DRAG_pulse.sigma self) mu t in
    let* der_env' :=
      subtract_offsets
        (deriv_gauss (Mux_DRAG_pulse.motzoi self) (Mux_DRAG_pulse.sigma self)
           mu t gauss_env) in
    modulate_into pick_I (np_zeros (length tvals)) idx0 idx1
      (np_zeros (length tvals')) der_env' tvals'
      (Mux_DRAG_pulse.mod_frequency self) (Mux_DRAG_pulse.phase self)
      (Mux_DRAG_pulse.D_phi_skew self) (Mux_DRAG_pulse.D_alpha self).
Proof.
  intros HD HDI HDQ.
  unfold Mux_DRAG_pulse.chan_wf, Mux_DRAG_pulse.chan_wf_with.
  destruct (active_window _ _) as [|[idx0 idx1]]; [done|]. cbn [bind].
  destruct (getitem tvals 0) as [|t0]; [done|]. cbn [bind].
  destruct (shift_origin _ _ _) as [|tvals']; [done|]. cbn [bind].
  destruct (decide (_ ∈ [Mux_DRAG_pulse.GI_channel self; _])) as [HG|_];
    [by destruct pick_I|].
  destruct (decide (_ ∈ [Mux_DRAG_pulse.DI_channel self; _])) as [_|HnD];
    [|exfalso; apply HnD, elem_of_pair; destruct pick_I; auto].
  destruct (subtract_offsets _) as [|d']; [done|]. cbn [bind].
  destruct pick_I; case_decide; try congruence.
  - by rewrite modulate_into_I.
  - by rewrite modulate_into_Q.
Qed.



Section mux_vs_single.
Variables (nm nm' I Q GI GQ DI DQ : string) (chs chs' : list string).
Variables (so so' : R) (t0 ck : option R).
Variables (amp sig nrs m f ph : R) (pl : bool).

Let p : SSB_DRAG_pulse.t :=
  SSB_DRAG_pulse.mk nm I Q chs amp sig nrs m f ph pl 1 0 (sig * nrs).
Let q : Mux_DRAG_pulse.t :=
  Mux_DRAG_pulse.mk nm' so so' t0 ck GI GQ DI DQ chs'
    amp sig nrs m f ph pl 1 0 1 0 (sig * nrs).


End mux_vs_single.

(** ** Keyword dictionaries *)

Lemma pop_num_empty key d : pop_num ∅ key d = (d, ∅).
Proof. unfold pop_num. by rewrite lookup_empty, delete_empty. Qed.

Lemma pop_bool_empty key d : pop_bool ∅ key d = (d, ∅).
Proof. unfold pop_bool. by rewrite lookup_empty, delete_empty. Qed.

Lemma pop_str_empty key d : pop_str ∅ key d = (d, ∅).
Proof. unfold pop_str. by rewrite lookup_empty, delete_empty. Qed.

Lemma pop_num_singleton key r d :
  pop_num {[key := VNum r]} key d = (r, ∅).
Proof. unfold pop_num. by rewrite lookup_singleton_eq, delete_singleton_eq. Qed.

Lemma pop_num_singleton_ne key key' v d :
  key ≠ key' → pop_num {[key := v]} key' d = (d, {[key := v]}).
Proof.
  intros Hne. unfold pop_num.
  by rewrite lookup_singleton_ne, delete_singleton_ne.
Qed.

Lemma pop_str_singleton_ne key key' v d :
  key ≠ key' → pop_str {[key := v]} key' d = (d, {[key := v]}).
Proof.
  intros Hne. unfold pop_str.
  by rewrite lookup_singleton_ne, delete_singleton_ne.
Qed.

(** ** Reconfiguration *)

Lemma instance_derived_ok p : Pulse.instance p → derived_ok p.
Proof. induction 1 as [| | |[]]; simpl; auto. Qed.

Lemma call_amplitude_only p a :
  derived_ok p →
  Pulse.call p {["amplitude" := VNum a]} = Pulse.with_amplitude a p.
Proof.
  destruct p as [x|x|x];
    cbn [Pulse.call Pulse.with_amplitude derived_ok]; intros Hok;
    apply (f_equal _).
  - unfold MW_IQmod_pulse.call.
    rewrite pop_num_singleton_ne by done.
    rewrite pop_num_singleton, !pop_num_empty, pop_bool_empty.
    done.
  - unfold SSB_DRAG_pulse.call.
    rewrite pop_num_singleton, !pop_num_empty, pop_bool_empty.
    unfold SSB_DRAG_pulse.with_amplitude. by rewrite Hok.
  - unfold Mux_DRAG_pulse.call.
    rewrite !pop_str_singleton_ne by done.
    rewrite pop_num_singleton, !pop_num_empty, pop_bool_empty.
    unfold Mux_DRAG_pulse.with_amplitude.
    destruct Hok as [-> ->]. done.
Qed.

(** ** What the transform is handed *)







(** ** When [chan_wf] returns *)

Lemma active_window_nonneg t0 (rest : array) len :
  0 <= len → ∃ idx1, active_window (t0 :: rest) len = inr (0%nat, idx1).
Proof.
  intros Hlen. unfold active_window, arr_ge, arr_le, np_where.
  cbn [getitem lookup list_lookup bind ret map np_where_from].
  rewrite bool_decide_true by lra.
  cbn [getitem lookup list_lookup bind ret map np_where_from].
  rewrite bool_decide_true by lra. cbn [np_where_from].
  unfold getitem_last.
  destruct (last (0%nat :: _)) as [i1|] eqn:Hl; [by eexists|].
  by apply last_None in Hl.
Qed.

(** A channel the Gaussian pulse does not own: zeros, as long as the
    duration is not negative. *)
Lemma SSB_chan_wf_foreign (self : SSB_DRAG_pulse.t) chan t0 (rest : array) :
  chan ≠ SSB_DRAG_pulse.I_channel self →
  chan ≠ SSB_DRAG_pulse.Q_channel self →
  0 <= SSB_DRAG_pulse.length self →
  SSB_DRAG_pulse.chan_wf self chan (t0 :: rest)
  = inr (np_zeros (length (t0 :: rest))).
Proof.
  intros HI HQ Hlen.
  unfold SSB_DRAG_pulse.chan_wf, SSB_DRAG_pulse.chan_wf_with.
  destruct (active_window_nonneg t0 rest _ Hlen) as [idx1 ->].
  cbn [bind getitem lookup list_lookup ret].
  destruct (shift_origin_length (SSB_DRAG_pulse.phaselock self) (t0 :: rest))
    as (tv' & -> & Hlen'); [simpl; lia|].
  cbn [bind].
  set (t := arr_sub_scalar (t0 :: rest) t0).
  assert (Ht : length t = length (t0 :: rest)) by apply length_arr_sub_scalar.
  set (g := gauss _ _ _ t).
  assert (Hg : length g = length t) by apply length_gauss.
  destruct (subtract_offsets_nonempty g) as (g' & -> & Hg');
    [simpl in *; lia|].
  cbn [bind].
  destruct (subtract_offsets_nonempty
              (deriv_gauss (SSB_DRAG_pulse.motzoi self)
                 (SSB_DRAG_pulse.sigma self)
                 (SSB_DRAG_pulse.length self / 2.0) t g)) as (d' & -> & Hd').
  { rewrite length_deriv_gauss by done. simpl in *; lia. }
  cbn [bind]. by repeat (case_decide; [congruence|]).
Qed.

Lemma Mux_chan_wf_foreign (self : Mux_DRAG_pulse.t) chan t0 (rest : array) :
  chan ∉ [Mux_DRAG_pulse.GI_channel self; Mux_DRAG_pulse.GQ_channel self] →
  chan ∉ [Mux_DRAG_pulse.DI_channel self; Mux_DRAG_pulse.DQ_channel self] →
  0 <= Mux_DRAG_pulse.length self →
  Mux_DRAG_pulse.chan_wf self chan (t0 :: rest)
  = inr (np_zeros (length (t0 :: rest))).
Proof.
  intros HG HD Hlen.
  unfold Mux_DRAG_pulse.chan_wf, Mux_DRAG_pulse.chan_wf_with.
  destruct (active_window_nonneg t0 rest _ Hlen) as [idx1 ->].
  cbn [bind getitem lookup list_lookup ret].
  destruct (shift_origin_length (Mux_DRAG_pulse.phaselock self) (t0 :: rest))
    as (tv' & -> & Hlen'); [simpl; lia|].
  cbn [bind]. by rewrite !decide_False by done.
Qed.

(** An owned channel of the Gaussian pulse: [chan_wf] returns exactly
    when the window found is the whole grid. *)
Lemma SSB_chan_wf_owned_cases (self : SSB_DRAG_pulse.t) (pick_I : bool)
    (tvals : array) idx0 idx1 :
  SSB_DRAG_pulse.I_channel self ≠ SSB_DRAG_pulse.Q_channel self →
  active_window tvals (SSB_DRAG_pulse.length self) = inr (idx0, idx1) →
  let r := SSB_DRAG_pulse.chan_wf self
             (if pick_I then SSB_DRAG_pulse.I_channel self
              else SSB_DRAG_pulse.Q_channel self) tvals in
  if decide (idx1 = length tvals)
  then ∃ wf, r = inr wf ∧ length wf = length tvals
  else r = inl ValueError.
Proof.
  intros HIQ Hw r. subst r. rewrite (SSB_chan_wf_owned self pick_I tvals HIQ).
  rewrite Hw. apply active_window_bounds in Hw as [-> Hidx].
  destruct tvals as [|t0 rest]; [simpl in Hidx; lia|].
  cbn [bind getitem lookup list_lookup ret].
  destruct (shift_origin_length (SSB_DRAG_pulse.phaselock self) (t0 :: rest))
    as (tv' & -> & Hlen); [simpl; lia|].
  cbn [bind].
  set (t := arr_sub_scalar (t0 :: rest) t0).
  assert (Ht : length t = length (t0 :: rest)) by apply length_arr_sub_scalar.
  set (g := gauss _ _ _ t).
  assert (Hg : length g = length t) by apply length_gauss.
  destruct (subtract_offsets_nonempty g) as (g' & -> & Hg');
    [simpl in *; lia|].
  cbn [bind].
  destruct (subtract_offsets_nonempty
              (deriv_gauss (SSB_DRAG_pulse.motzoi self)
                 (SSB_DRAG_pulse.sigma self)
                 (SSB_DRAG_pulse.length self / 2.0) t g)) as (d' & -> & Hd').
  { rewrite length_deriv_gauss by done. simpl in *; lia. }
  rewrite length_deriv_gauss in Hd' by done.
  cbn [bind]. rewrite <- Hlen in *.
  rewrite modulate_into_window by lia.
  case_decide; [|done]. eexists. split; [done|].
  apply length_map3; lia.
Qed.

(** A negative duration leaves [np.where] without a hit: the index
    [[-1]] raises before any channel is looked at. *)
Lemma negative_duration_IndexError (tvals : array) len :
  len < 0 → Forall (λ t, ∀ t0, tvals !! 0%nat = Some t0 → t0 <= t) tvals →
  active_window tvals len = inl IndexError.
Proof.
  intros Hlen Hmono. unfold active_window.
  destruct tvals as [|t0 rest]; [done|].
  cbn [getitem lookup list_lookup bind ret].
  unfold np_where at 1, arr_ge. cbn [map np_where_from].
  rewrite bool_decide_true by lra.
  cbn [getitem lookup list_lookup bind ret].
  assert (Hnone : ∀ i (l : array),
    Forall (λ t, t0 <= t) l → np_where_from i (arr_le l (t0 + len)) = []).
  { intros i l Hl. revert i. induction Hl as [|t l Ht _ IH]; intros i; [done|].
    cbn [arr_le map np_where_from]. rewrite bool_decide_false by lra.
    apply IH. }
  unfold np_where. rewrite Hnone; [done|].
  eapply Forall_impl; [exact Hmono|]. intros t Ht. by apply Ht.
Qed.

(** The keys a reconfiguration does read are stored as supplied. *)
Lemma SSB_call_stores_read_keys (self : SSB_DRAG_pulse.t)
    (kw : gmap string value) (v : R) :
  (kw !! "amplitude" = Some (VNum v) →
     SSB_DRAG_pulse.amplitude (SSB_DRAG_pulse.call self kw) = v)
  ∧ (kw !! "sigma" = Some (VNum v) →
       SSB_DRAG_pulse.sigma (SSB_DRAG_pulse.call self kw) = v)
  ∧ (kw !! "nr_sigma" = Some (VNum v) →
       SSB_DRAG_pulse.nr_sigma (SSB_DRAG_pulse.call self kw) = v)
  ∧ (kw !! "motzoi" = Some (VNum v) →
       SSB_DRAG_pulse.motzoi (SSB_DRAG_pulse.call self kw) = v)
  ∧ (kw !! "mod_frequency" = Some (VNum v) →
       SSB_DRAG_pulse.mod_frequency (SSB_DRAG_pulse.call self kw) = v)
  ∧ (kw !! "phase" = Some (VNum v) →
       SSB_DRAG_pulse.phase (SSB_DRAG_pulse.call self kw) = v).
Proof.
  unfold SSB_DRAG_pulse.call, pop_num, pop_bool.
  cbn [SSB_DRAG_pulse.amplitude SSB_DRAG_pulse.sigma SSB_DRAG_pulse.nr_sigma
       SSB_DRAG_pulse.motzoi SSB_DRAG_pulse.mod_frequency
       SSB_DRAG_pulse.phase].
  split_and!; intros Hk; rewrite ?lookup_delete_ne by done; by rewrite Hk.
Qed.

Lemma MW_call_stores_skew (self : MW_IQmod_pulse.t)
    (kw : gmap string value) (v : R) :
  (kw !! "alpha" = Some (VNum v) →
     MW_IQmod_pulse.alpha (MW_IQmod_pulse.call self kw) = v)
  ∧ (kw !! "phi_skew" = Some (VNum v) →
       MW_IQmod_pulse.phi_skew (MW_IQmod_pulse.call self kw) = v).
Proof.
  unfold MW_IQmod_pulse.call, pop_num, pop_bool.
  cbn [MW_IQmod_pulse.alpha MW_IQmod_pulse.phi_skew].
  split_and!; intros Hk; rewrite ?lookup_delete_ne by done; by rewrite Hk.
Qed.

(** * The claims *)

(** C1. With [alpha = 1] and [phi_skew = 0] the transform is plain
    single-sideband modulation: for envelopes and a time array of one
    common length, at every sample, with
    [x = 2π·mod_frequency·t + phase] (phase in radians),
    [mod_I = env_I·cos x + env_Q·sin x] and
    [mod_Q = −env_I·sin x + env_Q·cos x]. *)
Theorem C1_plain_SSB_modulation (env_I env_Q t : array) (mod_frequency phase : R) :
  length env_I = length t → length env_Q = length t →
  apply_modulation env_I env_Q t mod_frequency phase 0 1
  = inr (map3 (λ ti eI eQ,
                 let x := 2 * PI * mod_frequency * ti + deg2rad phase in
                 eI * cos x + eQ * sin x) t env_I env_Q,
         map3 (λ ti eI eQ,
                 let x := 2 * PI * mod_frequency * ti + deg2rad phase in
                 - eI * sin x + eQ * cos x) t env_I env_Q).
Proof.
  intros HI HQ. rewrite apply_modulation_same_length by done.
  assert (H0 : deg2rad 0 = 0) by (unfold deg2rad; lra).
  unfold ret. f_equal. f_equal; apply map3_ext; intros ti eI eQ; cbv zeta.
  - unfold mod_I_at. rewrite H0, tan_0. ring.
  - unfold mod_Q_at. rewrite H0, cos_0. field.
Qed.

Lemma C1_plain_SSB_modulation_witness :
  length [1; 0.5] = length [0; 1e-9]
  ∧ length [0; 0.25] = length [0; 1e-9]
  ∧ apply_modulation [1; 0.5] [0; 0.25] [0; 1e-9] 1e6 90 0 1
    = inr (map3 (λ ti eI eQ,
                   let x := 2 * PI * 1e6 * ti + deg2rad 90 in
                   eI * cos x + eQ * sin x) [0; 1e-9] [1; 0.5] [0; 0.25],
           map3 (λ ti eI eQ,
                   let x := 2 * PI * 1e6 * ti + deg2rad 90 in
                   - eI * sin x + eQ * cos x) [0; 1e-9] [1; 0.5] [0; 0.25]).
Proof.
  split; [reflexivity|]. split; [reflexivity|].
  apply (C1_plain_SSB_modulation [1; 0.5] [0; 0.25] [0; 1e-9] 1e6 90);
    reflexivity.
Defined.



(** C8. In the Gaussian family the stored duration is [sigma * nr_sigma]
    of the stored [sigma] and [nr_sigma], after the constructor and after
    every reconfiguration, whatever the keyword arguments; a [length]
    keyword changes nothing. *)
Theorem C8_duration_is_derived :
  (∀ name I Q kw,
     let p := SSB_DRAG_pulse.init name I Q kw in
     SSB_DRAG_pulse.length p
     = SSB_DRAG_pulse.sigma p * SSB_DRAG_pulse.nr_sigma p)
  ∧ (∀ self kw,
       let p := SSB_DRAG_pulse.call self kw in
       SSB_DRAG_pulse.length p
       = SSB_DRAG_pulse.sigma p * SSB_DRAG_pulse.nr_sigma p)
  ∧ (∀ name GI GQ DI DQ kw,
       let p := Mux_DRAG_pulse.init name GI GQ DI DQ kw in
       Mux_DRAG_pulse.length p
       = Mux_DRAG_pulse.sigma p * Mux_DRAG_pulse.nr_sigma p)
  ∧ (∀ self kw,
       let p := Mux_DRAG_pulse.call self kw in
       Mux_DRAG_pulse.length p
       = Mux_DRAG_pulse.sigma p * Mux_DRAG_pulse.nr_sigma p)
  ∧ (∀ self kw v,
       SSB_DRAG_pulse.call self (<["length" := v]> kw)
       = SSB_DRAG_pulse.call self kw)
  ∧ (∀ self kw v,
       Mux_DRAG_pulse.call self (<["length" := v]> kw)
       = Mux_DRAG_pulse.call self kw).
Proof.
  split_and!; try done.
  - intros self kw v. unfold SSB_DRAG_pulse.call, pop_num, pop_bool.
    rewrite ?lookup_delete_ne, ?lookup_insert_ne by done. done.
  - intros self kw v.
    unfold Mux_DRAG_pulse.call, pop_num, pop_bool, pop_str.
    rewrite ?lookup_delete_ne, ?lookup_insert_ne by done. done.
Qed.

(** C9. Reconfiguring a pulse instance with the amplitude key alone
    replaces the amplitude and nothing else: every other parameter, the
    channel list and the derived duration keep their values, the call
    returns the reference it was invoked on, and no other object of the
    store changes. *)
Theorem C9_amplitude_only (heap : gmap nat Pulse.t) (ref : nat)
    (p : Pulse.t) (a : R) :
  heap !! ref = Some p → Pulse.instance p →
  invoke Pulse.call heap ref {["amplitude" := VNum a]}
  = Some (<[ref := Pulse.with_amplitude a p]> heap, ref).
Proof.
  intros Hp Hinst. unfold invoke. rewrite Hp.
  by rewrite call_amplitude_only by by apply instance_derived_ok.
Qed.

Lemma C9_amplitude_only_witness :
  let p := Pulse.SSB (SSB_DRAG_pulse.init "X180" "ch1" "ch2" ∅) in
  ({[7%nat := p]} : gmap nat Pulse.t) !! 7%nat = Some p
  ∧ Pulse.instance p
  ∧ invoke Pulse.call {[7%nat := p]} 7 {["amplitude" := VNum 0.2]}
    = Some (<[7%nat := Pulse.with_amplitude 0.2 p]> {[7%nat := p]}, 7%nat).
Proof.
  intros p.
  assert (Hp : ({[7%nat := p]} : gmap nat Pulse.t) !! 7%nat = Some p)
    by apply lookup_singleton_eq.
  assert (Hi : Pulse.instance p) by apply Pulse.new_SSB.
  split; [exact Hp|]. split; [exact Hi|].
  exact (C9_amplitude_only {[7%nat := p]} 7 p 0.2 Hp Hi).
Defined.

(** C10. The waveform of the block pulse does not depend on its
    amplitude: two block pulses that differ in the amplitude alone give
    the same result for every channel and time grid. *)
Theorem C10_block_pulse_ignores_amplitude
    (name I_channel Q_channel : string) (channels : list string)
    (mod_frequency a1 a2 len phase : R) (phaselock : bool)
    (alpha phi_skew : R) (chan : string) (tvals : array) :
  MW_IQmod_pulse.chan_wf
    (MW_IQmod_pulse.mk name I_channel Q_channel channels
       mod_frequency a1 len phase phaselock alpha phi_skew) chan tvals
  = MW_IQmod_pulse.chan_wf
      (MW_IQmod_pulse.mk name I_channel Q_channel channels
         mod_frequency a2 len phase phaselock alpha phi_skew) chan tvals.
Proof. reflexivity. Qed.

(** C4. Reconfiguration stores the supplied value of every parameter it
    reads, but [SSB_DRAG_pulse.__call__] never reads [alpha] and
    [phi_skew], and [Mux_DRAG_pulse.__call__] never reads [motzoi]: those
    keep their previous values whatever is supplied.  At the default
    pulses, [alpha=2], [phi_skew=10] and [motzoi=0] are dropped. *)
Theorem C4_reconfigure_drops_keys :
  (∀ self kw, SSB_DRAG_pulse.alpha (SSB_DRAG_pulse.call self kw)
              = SSB_DRAG_pulse.alpha self)
  ∧ (∀ self kw, SSB_DRAG_pulse.phi_skew (SSB_DRAG_pulse.call self kw)
                = SSB_DRAG_pulse.phi_skew self)
  ∧ (∀ self kw, Mux_DRAG_pulse.motzoi (Mux_DRAG_pulse.call self kw)
                = Mux_DRAG_pulse.motzoi self)
  ∧ SSB_DRAG_pulse.alpha
      (SSB_DRAG_pulse.call (SSB_DRAG_pulse.init "X180" "ch1" "ch2" ∅)
         {["alpha" := VNum 2]}) = 1
  ∧ SSB_DRAG_pulse.phi_skew
      (SSB_DRAG_pulse.call (SSB_DRAG_pulse.init "X180" "ch1" "ch2" ∅)
         {["phi_skew" := VNum 10]}) = 0
  ∧ Mux_DRAG_pulse.motzoi
      (Mux_DRAG_pulse.call (Mux_DRAG_pulse.init_default "X180" ∅)
         {["motzoi" := VNum 0]}) = 1.
Proof.
  split_and!; try done.
Qed.

(** ** Concrete runs *)

(** Decides the comparisons of a window computation on a concrete grid. *)
Ltac eval_window :=
  unfold active_window, arr_ge, arr_le, getitem, getitem_last, np_where;
  repeat (cbn [map np_where_from lookup list_lookup last bind ret];
          first [ rewrite bool_decide_true by lra
                | rewrite bool_decide_false by lra ]);
  reflexivity.

Lemma default_MW_length : MW_IQmod_pulse.length default_MW = 1e-6.
Proof. reflexivity. Qed.

Lemma default_SSB_length : SSB_DRAG_pulse.length default_SSB = 0.25e-6 * 4.
Proof. reflexivity. Qed.

Lemma default_Mux_length : Mux_DRAG_pulse.length default_Mux = 0.25e-6 * 4.
Proof. reflexivity. Qed.

Lemma active_window_grid_3us len :
  len = 1e-6 → active_window grid_3us len = inr (0%nat, 2%nat).
Proof. intros ->. unfold grid_3us. eval_window. Qed.

(** Runs [chan_wf] of a default pulse on [grid_3us]. *)
Ltac run_on_grid_3us Hlen :=
  unfold Pulse.chan_wf, MW_IQmod_pulse.chan_wf, SSB_DRAG_pulse.chan_wf,
    SSB_DRAG_pulse.chan_wf_with, Mux_DRAG_pulse.chan_wf,
    Mux_DRAG_pulse.chan_wf_with;
  rewrite Hlen, active_window_grid_3us by lra;
  reflexivity.

(** C2. Claimed: on every owned channel [chan_wf] returns an array of the
    grid's length, zero outside the window.  The code does not: when the
    grid has samples after the window, envelopes of the grid's length
    meet a time slice of the window's length and numpy raises ValueError.
    The default pulses of the three classes, on a grid whose third sample
    lies after the pulse, all end in that exception. *)
Theorem C2_grid_longer_than_window_raises :
  Pulse.chan_wf (Pulse.MW default_MW) "ch1" grid_3us = inl ValueError
  ∧ Pulse.chan_wf (Pulse.SSB default_SSB) "ch1" grid_3us = inl ValueError
  ∧ Pulse.chan_wf (Pulse.Mux default_Mux) "ch3" grid_3us = inl ValueError.
Proof.
  split_and!.
  - run_on_grid_3us default_MW_length.
  - run_on_grid_3us default_SSB_length.
  - run_on_grid_3us default_Mux_length.
Qed.

(** C6. Claimed: for a channel the pulse does not own, [chan_wf] returns
    zeros and never raises.  The Gaussian classes do so, but the block
    pulse runs the transform before it looks at the channel: on a grid
    with samples after the window it raises ValueError for a foreign
    channel too. *)
Theorem C6_block_pulse_raises_on_foreign_channel :
  Pulse.chan_wf (Pulse.MW default_MW) "ch7" grid_3us = inl ValueError
  ∧ Pulse.chan_wf (Pulse.SSB default_SSB) "ch7" grid_3us = inr [0; 0; 0]
  ∧ Pulse.chan_wf (Pulse.Mux default_Mux) "ch7" grid_3us = inr [0; 0; 0].
Proof.
  split_and!.
  - run_on_grid_3us default_MW_length.
  - run_on_grid_3us default_SSB_length.
  - run_on_grid_3us default_Mux_length.
Qed.

Lemma map3_zeros_r (s : R → R → R → R) (t a : array) :
  length a = length t → (∀ x u, s x u 0 = 0) →
  map3 s t a (np_zeros (length t)) = np_zeros (length t).
Proof.
  intros Ha Hs. revert a Ha. unfold np_zeros.
  induction t as [|x t IH]; intros [|u a]; simpl; try done.
  intros [= Ha]. by rewrite Hs, IH.
Qed.

Lemma sample_at_Q_unmodulated phi_skew alpha x u :
  sample_at false 0 0 phi_skew alpha x u 0 = 0.
Proof.
  unfold sample_at, mod_Q_at, deg2rad.
  replace (2 * PI * 0 * x + 2 * PI * 0 / 360) with 0 by lra.
  rewrite sin_0, cos_0. unfold Rdiv. ring.
Qed.

(** C3, the claim as it stands fails: with [motzoi = 0] the Q channel
    still carries the quadrature of the modulated Gaussian.  At zero
    modulation frequency and a phase of 90 degrees its second sample on
    the grid [0; 1] is negative. *)
Lemma C3_counterexample :
  SSB_DRAG_pulse.motzoi quarter_turn_pulse = 0
  ∧ ∃ wf v,
      SSB_DRAG_pulse.chan_wf quarter_turn_pulse
        (SSB_DRAG_pulse.Q_channel quarter_turn_pulse) [0; 1] = inr wf
      ∧ wf !! 1%nat = Some v ∧ v < 0.
Proof.
  split; [reflexivity|].
  assert (Hw : active_window [0; 1] (1 * 2) = inr (0%nat, 2%nat))
    by eval_window.
  eexists _, _. split_and!.
  - unfold SSB_DRAG_pulse.chan_wf, SSB_DRAG_pulse.chan_wf_with.
    cbn [quarter_turn_pulse SSB_DRAG_pulse.length].
    rewrite Hw. reflexivity.
  - reflexivity.
  - cbv beta.
    cbn [quarter_turn_pulse SSB_DRAG_pulse.phi_skew SSB_DRAG_pulse.alpha
         SSB_DRAG_pulse.mod_frequency SSB_DRAG_pulse.phase
         SSB_DRAG_pulse.amplitude SSB_DRAG_pulse.sigma
         SSB_DRAG_pulse.motzoi].
    unfold mod_Q_at, deg2rad.
    replace (2 * PI * 0 * 1 + 2 * PI * 90 / 360) with (PI / 2) by lra.
    replace (2 * PI * 0 / 360) with 0 by lra.
    rewrite sin_PI2, cos_PI2, cos_0.
    replace (- (0.5 * (0 - 0 - 1 * 2 / 2.0) ^ 2 / 1 ^ 2)) with (- (1 / 2))
      by lra.
    replace (- (0.5 * (1 - 0 - 1 * 2 / 2.0) ^ 2 / 1 ^ 2)) with 0 by lra.
    rewrite exp_0.
    assert (He : exp (- (1 / 2)) < 1).
    { pose proof (exp_increasing (- (1 / 2)) 0 ltac:(lra)) as He.
      by rewrite exp_0 in He. }
    lra.
Qed.

(** C3, amended.  For the single Gaussian/DRAG pulse with [motzoi = 0],
    no modulation ([mod_frequency = 0], [phase = 0]), a width
    [sigma ≠ 0], skew parameters with [alpha·cos(phi_skew) ≠ 0] and
    distinct I and Q channels, on a non-empty grid whose last sample lies
    within the pulse, the Q-channel waveform is returned and is zero at
    every sample, whatever the amplitude, [nr_sigma] and the phase
    lock. *)
Theorem C3_Q_zero_without_modulation (self : SSB_DRAG_pulse.t)
    (tvals : array) (t0 tl : R) :
  SSB_DRAG_pulse.sigma self ≠ 0 →
  SSB_DRAG_pulse.alpha self * cos (deg2rad (SSB_DRAG_pulse.phi_skew self))
  ≠ 0 →
  SSB_DRAG_pulse.motzoi self = 0 →
  SSB_DRAG_pulse.mod_frequency self = 0 →
  SSB_DRAG_pulse.phase self = 0 →
  SSB_DRAG_pulse.I_channel self ≠ SSB_DRAG_pulse.Q_channel self →
  tvals !! 0%nat = Some t0 → last tvals = Some tl →
  tl <= t0 + SSB_DRAG_pulse.length self →
  SSB_DRAG_pulse.chan_wf self (SSB_DRAG_pulse.Q_channel self) tvals
  = inr (np_zeros (length tvals)).
Proof.
  intros _ _ Hm Hf Hph HIQ Ht0 Htl Hle.
  rewrite (SSB_chan_wf_owned self false tvals HIQ).
  rewrite (active_window_full tvals _ t0 tl) by done. cbn [bind].
  unfold getitem. rewrite Ht0. cbn [bind ret].
  assert (Hn : (0 < length tvals)%nat) by (by eapply lookup_lt_Some).
  destruct (shift_origin_length (SSB_DRAG_pulse.phaselock self) tvals Hn)
    as (tv' & -> & Hlen).
  cbn [bind].
  set (t := arr_sub_scalar tvals t0).
  assert (Ht : length t = length tvals) by apply length_arr_sub_scalar.
  set (g := gauss _ _ _ t).
  assert (Hg : length g = length t) by apply length_gauss.
  destruct (subtract_offsets_nonempty g) as (g' & -> & Hg'); [lia|].
  rewrite Hm, deriv_gauss_motzoi_0 by done.
  rewrite subtract_offsets_zeros by lia. cbn [bind].
  rewrite Hf, Hph, Ht, <- Hlen.
  rewrite modulate_into_window by (rewrite ?length_np_zeros; lia).
  rewrite decide_True by done.
  rewrite map3_zeros_r; [done|lia|apply sample_at_Q_unmodulated].
Qed.

Lemma C3_Q_zero_without_modulation_witness :
  let p := SSB_DRAG_pulse.mk "X180" "ch1" "ch2" ["ch1"; "ch2"]
             0.1 0.25 4 0 0 0 true 1 0 (0.25 * 4) in
  SSB_DRAG_pulse.sigma p ≠ 0
  ∧ SSB_DRAG_pulse.alpha p * cos (deg2rad (SSB_DRAG_pulse.phi_skew p)) ≠ 0
  ∧ SSB_DRAG_pulse.motzoi p = 0
  ∧ SSB_DRAG_pulse.mod_frequency p = 0
  ∧ SSB_DRAG_pulse.phase p = 0
  ∧ SSB_DRAG_pulse.I_channel p ≠ SSB_DRAG_pulse.Q_channel p
  ∧ [0; 0.5; 1] !! 0%nat = Some 0
  ∧ last [0; 0.5; 1] = Some 1
  ∧ 1 <= 0 + SSB_DRAG_pulse.length p
  ∧ SSB_DRAG_pulse.chan_wf p (SSB_DRAG_pulse.Q_channel p) [0; 0.5; 1]
    = inr (np_zeros (length [0; 0.5; 1])).
Proof.
  intros p.
  assert (HIQ : SSB_DRAG_pulse.I_channel p ≠ SSB_DRAG_pulse.Q_channel p)
    by discriminate.
  assert (Hle : 1 <= 0 + SSB_DRAG_pulse.length p) by (simpl; lra).
  assert (Hs : SSB_DRAG_pulse.sigma p ≠ 0) by (simpl; lra).
  assert (Ha : SSB_DRAG_pulse.alpha p
               * cos (deg2rad (SSB_DRAG_pulse.phi_skew p)) ≠ 0).
  { cbn [p SSB_DRAG_pulse.alpha SSB_DRAG_pulse.phi_skew]. unfold deg2rad.
    replace (2 * PI * 0 / 360) with 0 by lra. rewrite cos_0. lra. }
  split_and!; try reflexivity; try assumption.
  exact (C3_Q_zero_without_modulation p [0; 0.5; 1] 0 1
           Hs Ha eq_refl eq_refl eq_refl HIQ eq_refl eq_refl Hle).
Defined.



(** * Further properties of the pulse library *)

Lemma bind_inr_inv {A B : Type} (m : result A) (k : A → result B) b :
  bind m k = inr b → ∃ a, m = inr a ∧ k a = inr b.
Proof. destruct m as [e|a]; [done|]. intros Hk. by exists a. Qed.

Lemma iadd_slice_length (wf v wf' : array) i j :
  iadd_slice wf i j v = inr wf' → length wf' = length wf.
Proof.
  unfold iadd_slice. case_decide as Hv; [|done]. intros [= <-].
  rewrite !length_app, length_zip_with, length_broadcast_to by done.
  unfold slice. rewrite ?length_take, ?length_drop. lia.
Qed.

(** The tail of a branch on a window that is the whole grid. *)
Lemma modulate_into_full pick_I (wf I_env Q_env tvals : array)
    f ph phi_skew alpha :
  length wf = length tvals →
  length I_env = length tvals → length Q_env = length tvals →
  modulate_into pick_I wf 0 (length tvals) I_env Q_env tvals
    f ph phi_skew alpha
  = inr (zip_with Rplus wf
           (map3 (sample_at pick_I f ph phi_skew alpha) tvals I_env Q_env)).
Proof.
  intros Hwf HI HQ. unfold modulate_into. rewrite slice_full.
  rewrite apply_modulation_same_length by done. cbn [bind ret].
  rewrite <- Hwf.
  destruct pick_I; cbn [fst snd]; rewrite iadd_slice_full; try done;
    rewrite Hwf; by apply length_map3.
Qed.

Lemma chan_wf_length_MW (x : MW_IQmod_pulse.t) chan tvals wf :
  MW_IQmod_pulse.chan_wf x chan tvals = inr wf → length wf = length tvals.
Proof.
  unfold MW_IQmod_pulse.chan_wf.
  intros ([idx0 idx1] & _ & H)%bind_inr_inv.
  apply bind_inr_inv in H as (tv' & _ & H).
  apply bind_inr_inv in H as ([I_mod Q_mod] & _ & H).
  repeat case_decide.
  - apply iadd_slice_length in H. by rewrite H, length_np_zeros.
  - apply iadd_slice_length in H. by rewrite H, length_np_zeros.
  - injection H as <-. apply length_np_zeros.
Qed.

Lemma chan_wf_length_SSB (modulate : transform) (x : SSB_DRAG_pulse.t)
    chan tvals wf :
  SSB_DRAG_pulse.chan_wf_with modulate x chan tvals = inr wf →
  length wf = length tvals.
Proof.
  unfold SSB_DRAG_pulse.chan_wf_with.
  intros ([idx0 idx1] & _ & H)%bind_inr_inv.
  apply bind_inr_inv in H as (t0 & _ & H).
  apply bind_inr_inv in H as (tv' & _ & H).
  apply bind_inr_inv in H as (g' & _ & H).
  apply bind_inr_inv in H as (d' & _ & H).
  apply bind_inr_inv in H as (wf1 & H1 & H).
  apply bind_inr_inv in H as (wf2 & H2 & H).
  injection H as <-.
  assert (Hwf1 : length wf1 = length tvals).
  { clear H2. destruct (decide (chan = SSB_DRAG_pulse.I_channel x)).
    - apply bind_inr_inv in H1 as ([I_mod Q_mod] & _ & H1).
      apply iadd_slice_length in H1. by rewrite H1, length_np_zeros.
    - injection H1 as <-. apply length_np_zeros. }
  clear H1. destruct (decide (chan = SSB_DRAG_pulse.Q_channel x)).
  - apply bind_inr_inv in H2 as ([I_mod Q_mod] & _ & H2).
    apply iadd_slice_length in H2. by rewrite H2.
  - by injection H2 as <-.
Qed.

Lemma chan_wf_length_Mux (modulate : transform) (x : Mux_DRAG_pulse.t)
    chan tvals wf :
  Mux_DRAG_pulse.chan_wf_with modulate x chan tvals = inr wf →
  length wf = length tvals.
Proof.
  unfold Mux_DRAG_pulse.chan_wf_with.
  intros ([idx0 idx1] & _ & H)%bind_inr_inv.
  apply bind_inr_inv in H as (t0 & _ & H).
  apply bind_inr_inv in H as (tv' & _ & H).
  case_decide; [|case_decide].
  - apply bind_inr_inv in H as (g' & _ & H).
    apply bind_inr_inv in H as ([I_mod Q_mod] & _ & H).
    case_decide; apply iadd_slice_length in H;
      by rewrite H, length_np_zeros.
  - apply bind_inr_inv in H as (d' & _ & H).
    apply bind_inr_inv in H as ([I_mod Q_mod] & _ & H).
    case_decide; apply iadd_slice_length in H;
      by rewrite H, length_np_zeros.
  - injection H as <-. apply length_np_zeros.
Qed.

(** X1. Whenever [chan_wf] returns an array, for any of the three pulse
    classes, any channel and any grid, the array has as many samples as
    the grid. *)
Theorem X1_waveform_has_grid_length (p : Pulse.t) (chan : string)
    (tvals wf : array) :
  Pulse.chan_wf p chan tvals = inr wf → length wf = length tvals.
Proof.
  destruct p as [x|x|x]; cbn [Pulse.chan_wf].
  - apply chan_wf_length_MW.
  - apply chan_wf_length_SSB.
  - apply chan_wf_length_Mux.
Qed.

Lemma X1_waveform_has_grid_length_witness :
  Pulse.chan_wf (Pulse.SSB default_SSB) "ch7" grid_3us = inr [0; 0; 0]
  ∧ length [0; 0; 0] = length grid_3us.
Proof.
  assert (H : Pulse.chan_wf (Pulse.SSB default_SSB) "ch7" grid_3us
              = inr [0; 0; 0])
    by run_on_grid_3us default_SSB_length.
  split; [exact H|].
  exact (X1_waveform_has_grid_length _ _ _ _ H).
Defined.

(** ** Grids that end within the pulse *)

Lemma length_np_ones n : length (np_ones n) = n.
Proof. apply length_replicate. Qed.

Lemma chan_wf_within_MW (x : MW_IQmod_pulse.t) chan (tvals : array) t0 tl :
  tvals !! 0%nat = Some t0 → last tvals = Some tl →
  tl <= t0 + MW_IQmod_pulse.length x →
  ∃ wf, MW_IQmod_pulse.chan_wf x chan tvals = inr wf.
Proof.
  intros Ht0 Htl Hle. unfold MW_IQmod_pulse.chan_wf.
  rewrite (active_window_full tvals _ t0 tl) by done. cbn [bind].
  assert (Hn : (0 < length tvals)%nat) by (by eapply lookup_lt_Some).
  destruct (shift_origin_length (MW_IQmod_pulse.phaselock x) tvals Hn)
    as (tv' & -> & Hlen).
  cbn [bind]. rewrite <- Hlen.
  repeat case_decide.
  - rewrite modulate_into_I, modulate_into_full
      by (by rewrite ?length_np_zeros, ?length_np_ones). by eexists.
  - rewrite modulate_into_Q, modulate_into_full
      by (by rewrite ?length_np_zeros, ?length_np_ones). by eexists.
  - rewrite slice_full, apply_modulation_same_length
      by (by rewrite ?length_np_zeros, ?length_np_ones).
    by eexists.
Qed.

Lemma chan_wf_within_SSB (x : SSB_DRAG_pulse.t) chan (tvals : array) t0 tl :
  tvals !! 0%nat = Some t0 → last tvals = Some tl →
  tl <= t0 + SSB_DRAG_pulse.length x →
  ∃ wf, SSB_DRAG_pulse.chan_wf x chan tvals = inr wf.
Proof.
  intros Ht0 Htl Hle.
  unfold SSB_DRAG_pulse.chan_wf, SSB_DRAG_pulse.chan_wf_with.
  rewrite (active_window_full tvals _ t0 tl) by done. cbn [bind].
  unfold getitem. rewrite Ht0. cbn [bind ret].
  assert (Hn : (0 < length tvals)%nat) by (by eapply lookup_lt_Some).
  destruct (shift_origin_length (SSB_DRAG_pulse.phaselock x) tvals Hn)
    as (tv' & -> & Hlen).
  cbn [bind].
  set (t := arr_sub_scalar tvals t0).
  assert (Ht : length t = length tvals) by apply length_arr_sub_scalar.
  set (g := gauss _ _ _ t).
  assert (Hg : length g = length t) by apply length_gauss.
  destruct (subtract_offsets_nonempty g) as (g' & -> & Hg'); [lia|].
  cbn [bind].
  destruct (subtract_offsets_nonempty
              (deriv_gauss (SSB_DRAG_pulse.motzoi x) (SSB_DRAG_pulse.sigma x)
                 (SSB_DRAG_pulse.length x / 2.0) t g)) as (d' & -> & Hd').
  { rewrite length_deriv_gauss by done. lia. }
  rewrite length_deriv_gauss in Hd' by done.
  cbn [bind]. rewrite <- Hlen.
  destruct (decide (chan = SSB_DRAG_pulse.I_channel x));
    destruct (decide (chan = SSB_DRAG_pulse.Q_channel x));
    rewrite ?modulate_into_I, ?modulate_into_full
      by (rewrite ?length_np_zeros; lia);
    cbn [bind ret];
    rewrite ?modulate_into_Q, ?modulate_into_full;
    try (by eexists); rewrite ?length_np_zeros; try lia.
  rewrite length_zip_with, length_np_zeros.
  rewrite (length_map3 _ _ _ _ (length tv')); lia.
Qed.

Lemma chan_wf_within_Mux (x : Mux_DRAG_pulse.t) chan (tvals : array) t0 tl :
  tvals !! 0%nat = Some t0 → last tvals = Some tl →
  tl <= t0 + Mux_DRAG_pulse.length x →
  ∃ wf, Mux_DRAG_pulse.chan_wf x chan tvals = inr wf.
Proof.
  intros Ht0 Htl Hle.
  unfold Mux_DRAG_pulse.chan_wf, Mux_DRAG_pulse.chan_wf_with.
  rewrite (active_window_full tvals _ t0 tl) by done. cbn [bind].
  unfold getitem. rewrite Ht0. cbn [bind ret].
  assert (Hn : (0 < length tvals)%nat) by (by eapply lookup_lt_Some).
  destruct (shift_origin_length (Mux_DRAG_pulse.phaselock x) tvals Hn)
    as (tv' & -> & Hlen).
  cbn [bind].
  set (t := arr_sub_scalar tvals t0).
  assert (Ht : length t = length tvals) by apply length_arr_sub_scalar.
  set (g := gauss _ _ _ t).
  assert (Hg : length g = length t) by apply length_gauss.
  rewrite <- Hlen.
  case_decide; [|case_decide; [|by eexists]].
  - destruct (subtract_offsets_nonempty g) as (g' & -> & Hg'); [lia|].
    cbn [bind].
    case_decide;
      rewrite ?modulate_into_I, ?modulate_into_Q, modulate_into_full
        by (rewrite ?length_np_zeros; lia); by eexists.
  - destruct (subtract_offsets_nonempty
                (deriv_gauss (Mux_DRAG_pulse.motzoi x)
                   (Mux_DRAG_pulse.sigma x)
                   (Mux_DRAG_pulse.length x / 2.0) t g)) as (d' & -> & Hd').
    { rewrite length_deriv_gauss by done. lia. }
    rewrite length_deriv_gauss in Hd' by done.
    cbn [bind].
    case_decide;
      rewrite ?modulate_into_I, ?modulate_into_Q, modulate_into_full
        by (rewrite ?length_np_zeros; lia); by eexists.
Qed.

(** X2. On a non-empty grid whose last sample lies within the pulse
    ([tvals[-1] <= tvals[0] + length]) [chan_wf] raises nothing: for each
    of the three classes and every channel, owned or not, it returns an
    array. *)
Theorem X2_returns_on_grid_within_pulse (p : Pulse.t) (chan : string)
    (tvals : array) (t0 tl : R) :
  tvals !! 0%nat = Some t0 → last tvals = Some tl →
  tl <= t0 + duration p →
  ∃ wf, Pulse.chan_wf p chan tvals = inr wf.
Proof.
  destruct p as [x|x|x]; cbn [Pulse.chan_wf duration].
  - apply chan_wf_within_MW.
  - apply chan_wf_within_SSB.
  - apply chan_wf_within_Mux.
Qed.

Lemma X2_returns_on_grid_within_pulse_witness :
  [0; 0.5e-6; 1e-6] !! 0%nat = Some 0
  ∧ last [0; 0.5e-6; 1e-6] = Some 1e-6
  ∧ 1e-6 <= 0 + duration (Pulse.Mux default_Mux)
  ∧ ∃ wf, Pulse.chan_wf (Pulse.Mux default_Mux) "ch3" [0; 0.5e-6; 1e-6]
          = inr wf.
Proof.
  assert (Hle : 1e-6 <= 0 + duration (Pulse.Mux default_Mux)).
  { cbn [duration]. rewrite default_Mux_length. lra. }
  split; [reflexivity|]. split; [reflexivity|]. split; [exact Hle|].
  exact (X2_returns_on_grid_within_pulse (Pulse.Mux default_Mux) "ch3"
           [0; 0.5e-6; 1e-6] 0 1e-6 eq_refl eq_refl Hle).
Defined.

(** ** Grids on which [chan_wf] raises IndexError *)

(** X3. On an empty grid [chan_wf] raises IndexError ([tvals[0]] does not
    exist), whatever the pulse and the channel. *)
Theorem X3_empty_grid_IndexError (p : Pulse.t) (chan : string) :
  Pulse.chan_wf p chan [] = inl IndexError.
Proof. by destruct p. Qed.

Lemma sorted_above_first (tvals : array) :
  StronglySorted Rle tvals →
  Forall (λ t, ∀ t0, tvals !! 0%nat = Some t0 → t0 <= t) tvals.
Proof.
  destruct 1 as [|t0 rest _ Hrest]; [done|].
  constructor.
  - intros ? [= <-]. lra.
  - eapply Forall_impl; [exact Hrest|]. by intros t Ht ? [= <-].
Qed.

(** X4. A pulse whose duration is negative cannot be sampled: on every
    non-decreasing grid [chan_wf] raises IndexError for every channel,
    because no sample satisfies [tvals <= tvals[0] + length]. *)
Theorem X4_negative_duration_IndexError (p : Pulse.t) (chan : string)
    (tvals : array) :
  duration p < 0 → StronglySorted Rle tvals →
  Pulse.chan_wf p chan tvals = inl IndexError.
Proof.
  intros Hneg Hsorted%sorted_above_first.
  destruct p as [x|x|x];
    cbn [Pulse.chan_wf duration] in *;
    unfold MW_IQmod_pulse.chan_wf, SSB_DRAG_pulse.chan_wf,
      SSB_DRAG_pulse.chan_wf_with, Mux_DRAG_pulse.chan_wf,
      Mux_DRAG_pulse.chan_wf_with;
    by rewrite (negative_duration_IndexError tvals _ Hneg Hsorted).
Qed.

Lemma X4_negative_duration_IndexError_witness :
  let p := Pulse.SSB (SSB_DRAG_pulse.mk "X180" "ch1" "ch2" ["ch1"; "ch2"]
                        0.1 (-0.25e-6) 4 0 1e6 0 true 1 0 (-0.25e-6 * 4)) in
  duration p < 0 ∧ StronglySorted Rle [0; 1e-9; 2e-9]
  ∧ Pulse.chan_wf p "ch1" [0; 1e-9; 2e-9] = inl IndexError.
Proof.
  intros p.
  assert (Hneg : duration p < 0) by (simpl; lra).
  assert (Hs : StronglySorted Rle [0; 1e-9; 2e-9]).
  { repeat constructor; lra. }
  split; [exact Hneg|]. split; [exact Hs|].
  exact (X4_negative_duration_IndexError p "ch1" [0; 1e-9; 2e-9] Hneg Hs).
Defined.

(** ** Pulses without phase lock *)

Lemma arr_ge_shift (a : array) x c :
  arr_ge (map (λ t, t + c) a) (x + c) = arr_ge a x.
Proof.
  unfold arr_ge. rewrite map_map. apply map_ext. intros t.
  apply bool_decide_ext. split; lra.
Qed.

Lemma arr_le_shift (a : array) x c len :
  arr_le (map (λ t, t + c) a) (x + c + len) = arr_le a (x + len).
Proof.
  unfold arr_le. rewrite map_map. apply map_ext. intros t.
  apply bool_decide_ext. split; lra.
Qed.

Lemma arr_sub_scalar_shift (a : array) x c :
  arr_sub_scalar (map (λ t, t + c) a) (x + c) = arr_sub_scalar a x.
Proof.
  unfold arr_sub_scalar. rewrite map_map. apply map_ext. intros t. lra.
Qed.

Lemma getitem_map {A B : Type} (f : A → B) (a : list A) i :
  getitem (map f a) i
  = match getitem a i with inl e => inl e | inr x => inr (f x) end.
Proof.
  unfold getitem. change (map f a) with (f <$> a).
  rewrite list_lookup_fmap. by destruct (a !! i).
Qed.

Lemma active_window_shift (tvals : array) c len :
  active_window (map (λ t, t + c) tvals) len = active_window tvals len.
Proof.
  unfold active_window. rewrite getitem_map.
  destruct (getitem tvals 0) as [|t0]; [done|]. cbn [bind].
  by rewrite arr_ge_shift, arr_le_shift.
Qed.

Lemma shift_origin_unlocked_shift (tvals : array) c idx0 :
  shift_origin false (map (λ t, t + c) tvals) idx0
  = shift_origin false tvals idx0.
Proof.
  unfold shift_origin. rewrite getitem_map.
  destruct (getitem tvals idx0) as [|ti]; [done|]. cbn [bind].
  by rewrite arr_sub_scalar_shift.
Qed.

(** X5. Without phase lock the waveform does not depend on absolute
    time: shifting every sample of the grid by the same amount changes
    nothing in what [chan_wf] returns or raises, for each of the three
    classes and every channel. *)
Theorem X5_unlocked_pulse_is_shift_invariant (p : Pulse.t) (chan : string)
    (tvals : array) (c : R) :
  is_phaselocked p = false →
  Pulse.chan_wf p chan (map (λ t, t + c) tvals) = Pulse.chan_wf p chan tvals.
Proof.
  destruct p as [x|x|x]; cbn [Pulse.chan_wf is_phaselocked]; intros Hpl;
    unfold MW_IQmod_pulse.chan_wf, SSB_DRAG_pulse.chan_wf,
      SSB_DRAG_pulse.chan_wf_with, Mux_DRAG_pulse.chan_wf,
      Mux_DRAG_pulse.chan_wf_with;
    rewrite Hpl, active_window_shift, length_map;
    destruct (active_window tvals _) as [|[idx0 idx1]]; try done;
    cbn [bind]; rewrite ?getitem_map;
    try (destruct (getitem tvals 0) as [|t0]; [done|]; cbn [bind]);
    by rewrite shift_origin_unlocked_shift, ?arr_sub_scalar_shift.
Qed.

Lemma X5_unlocked_pulse_is_shift_invariant_witness :
  let p := Pulse.MW (MW_IQmod_pulse.mk "LO" "ch1" "ch2" ["ch1"; "ch2"]
                       1e6 0.1 1e-6 0 false 1 0) in
  is_phaselocked p = false
  ∧ Pulse.chan_wf p "ch1" (map (λ t, t + 3e-6) [0; 0.5e-6; 1e-6])
    = Pulse.chan_wf p "ch1" [0; 0.5e-6; 1e-6].
Proof.
  intros p. split; [reflexivity|].
  exact (X5_unlocked_pulse_is_shift_invariant p "ch1" [0; 0.5e-6; 1e-6]
           3e-6 eq_refl).
Defined.

(** ** The waveform of the block pulse *)

Lemma map3_ones_zeros (s : R → R → R → R) (t : array) :
  map3 s t (np_ones (length t)) (np_zeros (length t))
  = map (λ x, s x 1 0) t.
Proof.
  unfold np_ones, np_zeros. induction t as [|x t IH]; simpl; [done|].
  by rewrite IH.
Qed.

Lemma shift_origin_carrier_times phaselock (tvals : array) t0 :
  tvals !! 0%nat = Some t0 →
  shift_origin phaselock tvals 0 = inr (carrier_times phaselock tvals t0).
Proof.
  intros Ht0. unfold shift_origin, carrier_times, getitem.
  destruct phaselock; [done|]. by rewrite Ht0.
Qed.

Lemma length_carrier_times phaselock (tvals : array) t0 :
  length (carrier_times phaselock tvals t0) = length tvals.
Proof. destruct phaselock; [done|]. apply length_arr_sub_scalar. Qed.

(** X6. The block pulse on a non-empty grid that ends within the pulse,
    I and Q channels distinct: with [w = 2π·mod_frequency·t + phase]
    (phase converted from degrees, [t] counted from the first sample
    unless phase locked), the I channel carries
    [cos w − tan(phi_skew)·sin w] and the Q channel
    [−sin w / (alpha·cos(phi_skew))] at every sample, the first column
    of the predistortion-modulation matrix of the class docstrings. *)
Theorem X6_block_pulse_waveform (x : MW_IQmod_pulse.t) (tvals : array)
    (t0 tl : R) :
  MW_IQmod_pulse.I_channel x ≠ MW_IQmod_pulse.Q_channel x →
  tvals !! 0%nat = Some t0 → last tvals = Some tl →
  tl <= t0 + MW_IQmod_pulse.length x →
  let w t := 2 * PI * MW_IQmod_pulse.mod_frequency x * t
             + deg2rad (MW_IQmod_pulse.phase x) in
  let skew := deg2rad (MW_IQmod_pulse.phi_skew x) in
  let times := carrier_times (MW_IQmod_pulse.phaselock x) tvals t0 in
  MW_IQmod_pulse.chan_wf x (MW_IQmod_pulse.I_channel x) tvals
  = inr (map (λ t, cos (w t) - tan skew * sin (w t)) times)
  ∧ MW_IQmod_pulse.chan_wf x (MW_IQmod_pulse.Q_channel x) tvals
    = inr (map (λ t, - sin (w t) / (MW_IQmod_pulse.alpha x * cos skew))
             times).
Proof.
  intros HIQ Ht0 Htl Hle w skew times.
  unfold MW_IQmod_pulse.chan_wf.
  rewrite (active_window_full tvals _ t0 tl) by done. cbn [bind].
  rewrite (shift_origin_carrier_times _ _ t0) by done. cbn [bind].
  fold times.
  assert (Hlen : length times = length tvals) by apply length_carrier_times.
  rewrite <- Hlen.
  repeat case_decide; try congruence.
  rewrite modulate_into_I, modulate_into_Q.
  rewrite !modulate_into_full
    by (by rewrite ?length_np_zeros, ?length_np_ones).
  rewrite !map3_ones_zeros.
  rewrite !zip_with_zeros_l by apply length_map.
  split; f_equal; apply map_ext; intros t;
    unfold sample_at, mod_I_at, mod_Q_at, w, skew, Rdiv; ring.
Qed.

Lemma X6_block_pulse_waveform_witness :
  let x := MW_IQmod_pulse.mk "LO" "ch1" "ch2" ["ch1"; "ch2"]
             10e6 0.1 1e-6 0 true 1 0 in
  let w t := 2 * PI * 10e6 * t + deg2rad 0 in
  MW_IQmod_pulse.I_channel x ≠ MW_IQmod_pulse.Q_channel x
  ∧ [0; 1e-9; 2e-9] !! 0%nat = Some 0
  ∧ last [0; 1e-9; 2e-9] = Some 2e-9
  ∧ 2e-9 <= 0 + MW_IQmod_pulse.length x
  ∧ MW_IQmod_pulse.chan_wf x "ch1" [0; 1e-9; 2e-9]
    = inr (map (λ t, cos (w t) - tan (deg2rad 0) * sin (w t))
             [0; 1e-9; 2e-9])
  ∧ MW_IQmod_pulse.chan_wf x "ch2" [0; 1e-9; 2e-9]
    = inr (map (λ t, - sin (w t) / (1 * cos (deg2rad 0)))
             [0; 1e-9; 2e-9]).
Proof.
  intros x w.
  assert (HIQ : MW_IQmod_pulse.I_channel x ≠ MW_IQmod_pulse.Q_channel x)
    by discriminate.
  assert (Hle : 2e-9 <= 0 + MW_IQmod_pulse.length x) by (simpl; lra).
  split; [exact HIQ|]. split; [reflexivity|]. split; [reflexivity|].
  split; [exact Hle|].
  exact (X6_block_pulse_waveform x [0; 1e-9; 2e-9] 0 2e-9
           HIQ eq_refl eq_refl Hle).
Defined.

(** ** The envelopes of the Gaussian classes *)

Lemma gauss_lookup amplitude sigma mu (t : array) k :
  gauss amplitude sigma mu t !! k
  = (λ ti, amplitude * exp (- (0.5 * (ti - mu) ^ 2 / sigma ^ 2))) <$> t !! k.
Proof. unfold gauss. change (map ?f ?l) with (f <$> l). apply list_lookup_fmap. Qed.

Lemma gauss_last amplitude sigma mu (t : array) :
  last (gauss amplitude sigma mu t)
  = (λ ti, amplitude * exp (- (0.5 * (ti - mu) ^ 2 / sigma ^ 2))) <$> last t.
Proof. unfold gauss. change (map ?f ?l) with (f <$> l). apply fmap_last. Qed.

Lemma deriv_gauss_lookup motzoi sigma mu (t g : array) k ti gi :
  t !! k = Some ti → g !! k = Some gi →
  deriv_gauss motzoi sigma mu t g !! k
  = Some (motzoi * -1 * (ti - mu) / sigma ^ 1 * gi).
Proof.
  intros Ht Hg. unfold deriv_gauss. rewrite lookup_zip_with, Ht. simpl.
  by rewrite Hg.
Qed.

Lemma arr_sub_scalar_lookup (a : array) x k :
  arr_sub_scalar a x !! k = (λ v, v - x) <$> a !! k.
Proof.
  unfold arr_sub_scalar. change (map ?f ?l) with (f <$> l).
  apply list_lookup_fmap.
Qed.

Lemma arr_sub_scalar_last (a : array) x :
  last (arr_sub_scalar a x) = (λ v, v - x) <$> last a.
Proof.
  unfold arr_sub_scalar. change (map ?f ?l) with (f <$> l). apply fmap_last.
Qed.

Lemma arr_sub_scalar_0 (a : array) x : x = 0 → arr_sub_scalar a x = a.
Proof.
  intros ->. unfold arr_sub_scalar.
  induction a as [|v a IH]; simpl; [done|]. rewrite IH. f_equal. lra.
Qed.

Lemma last_lookup_pred {A : Type} (l : list A) x :
  last l = Some x → l !! pred (length l) = Some x.
Proof. by rewrite last_lookup. Qed.

(** X7. For a width [sigma ≠ 0], on a grid that spans the pulse exactly
    ([tvals[-1] = tvals[0] + length]) the Gaussian envelope, once its
    offset is subtracted, is zero at the first and at the last sample;
    the derivative envelope has offset zero, so the subtraction leaves it
    as it is. *)
Theorem X7_envelopes_on_spanning_grid (amplitude sigma len motzoi : R)
    (tvals : array) (t0 tl : R) :
  sigma ≠ 0 →
  tvals !! 0%nat = Some t0 → last tvals = Some tl → tl = t0 + len →
  let t := arr_sub_scalar tvals t0 in
  let mu := len / 2.0 in
  let gauss_env := gauss amplitude sigma mu t in
  let deriv_gauss_env := deriv_gauss motzoi sigma mu t gauss_env in
  (∃ gauss_env',
     subtract_offsets gauss_env = inr gauss_env'
     ∧ gauss_env' !! 0%nat = Some 0 ∧ last gauss_env' = Some 0)
  ∧ subtract_offsets deriv_gauss_env = inr deriv_gauss_env.
Proof.
  intros _ Ht0 Htl -> t mu gauss_env deriv_gauss_env.
  set (G := λ ti, amplitude * exp (- (0.5 * (ti - mu) ^ 2 / sigma ^ 2))).
  assert (Ht0' : t !! 0%nat = Some (t0 - t0)).
  { unfold t. by rewrite arr_sub_scalar_lookup, Ht0. }
  assert (Htl' : last t = Some (t0 + len - t0)).
  { unfold t. by rewrite arr_sub_scalar_last, Htl. }
  assert (Hg0 : gauss_env !! 0%nat = Some (G (t0 - t0))).
  { unfold gauss_env. by rewrite gauss_lookup, Ht0'. }
  assert (Hgl : last gauss_env = Some (G (t0 + len - t0))).
  { unfold gauss_env. by rewrite gauss_last, Htl'. }
  assert (Hsym : G (t0 + len - t0) = G (t0 - t0)).
  { assert (He : (t0 + len - t0 - len / 2.0) ^ 2 = (t0 - t0 - len / 2.0) ^ 2).
    { replace (len / 2.0) with (len / 2) by lra. field. }
    unfold G, mu. by rewrite He. }
  split.
  - eexists. split; [by apply subtract_offsets_inr|].
    rewrite arr_sub_scalar_lookup, arr_sub_scalar_last, Hg0, Hgl, Hsym.
    simpl. split; f_equal; lra.
  - assert (Hlen : length gauss_env = length t) by apply length_gauss.
    assert (Hd0 : deriv_gauss_env !! 0%nat
                  = Some (motzoi * -1 * (t0 - t0 - mu) / sigma ^ 1
                          * G (t0 - t0))).
    { by apply deriv_gauss_lookup. }
    assert (Hdl : last deriv_gauss_env
                  = Some (motzoi * -1 * (t0 + len - t0 - mu) / sigma ^ 1
                          * G (t0 + len - t0))).
    { rewrite last_lookup. unfold deriv_gauss_env.
      rewrite length_deriv_gauss by done.
      apply deriv_gauss_lookup; [by apply last_lookup_pred|].
      rewrite <- Hlen. by apply last_lookup_pred. }
    rewrite (subtract_offsets_inr _ _ _ Hd0 Hdl). f_equal.
    apply arr_sub_scalar_0. rewrite Hsym.
    replace (t0 + len - t0 - mu) with (- (t0 - t0 - mu)) by (unfold mu; lra).
    unfold Rdiv. ring.
Qed.

Lemma X7_envelopes_on_spanning_grid_witness :
  let t := arr_sub_scalar [1e-6; 1.5e-6; 2e-6] 1e-6 in
  let gauss_env := gauss 0.1 0.25e-6 (1e-6 / 2.0) t in
  let deriv_gauss_env := deriv_gauss 1 0.25e-6 (1e-6 / 2.0) t gauss_env in
  0.25e-6 ≠ 0
  ∧ [1e-6; 1.5e-6; 2e-6] !! 0%nat = Some 1e-6
  ∧ last [1e-6; 1.5e-6; 2e-6] = Some 2e-6
  ∧ 2e-6 = 1e-6 + 1e-6
  ∧ (∃ gauss_env',
       subtract_offsets gauss_env = inr gauss_env'
       ∧ gauss_env' !! 0%nat = Some 0 ∧ last gauss_env' = Some 0)
  ∧ subtract_offsets deriv_gauss_env = inr deriv_gauss_env.
Proof.
  intros t gauss_env deriv_gauss_env.
  assert (H : 2e-6 = 1e-6 + 1e-6) by lra.
  assert (Hs : 0.25e-6 ≠ 0) by lra.
  split; [exact Hs|].
  split; [reflexivity|]. split; [reflexivity|]. split; [exact H|].
  exact (X7_envelopes_on_spanning_grid 0.1 0.25e-6 1e-6 1
           [1e-6; 1.5e-6; 2e-6] 1e-6 2e-6 Hs eq_refl eq_refl H).
Defined.

(** X8. On a grid that spans the pulse exactly, at a sample in the
    middle of the pulse the offset-corrected Gaussian envelope is
    [amplitude·(1 − exp(−nr_sigma²/8))]: the offset subtraction lowers
    the peak below the amplitude parameter. *)
Theorem X8_peak_of_corrected_gauss (amplitude sigma nr_sigma : R)
    (tvals : array) (t0 : R) (k : nat) :
  sigma ≠ 0 →
  tvals !! 0%nat = Some t0 →
  last tvals = Some (t0 + sigma * nr_sigma) →
  tvals !! k = Some (t0 + sigma * nr_sigma / 2) →
  ∃ gauss_env',
    subtract_offsets
      (gauss amplitude sigma (sigma * nr_sigma / 2.0)
         (arr_sub_scalar tvals t0)) = inr gauss_env'
    ∧ gauss_env' !! k = Some (amplitude * (1 - exp (- (nr_sigma ^ 2 / 8)))).
Proof.
  intros Hs Ht0 Htl Hk.
  set (mu := sigma * nr_sigma / 2.0).
  set (G := λ ti, amplitude * exp (- (0.5 * (ti - mu) ^ 2 / sigma ^ 2))).
  set (t := arr_sub_scalar tvals t0).
  assert (Hg0 : gauss amplitude sigma mu t !! 0%nat = Some (G (t0 - t0))).
  { unfold t. by rewrite gauss_lookup, arr_sub_scalar_lookup, Ht0. }
  assert (Hgl : last (gauss amplitude sigma mu t)
                = Some (G (t0 + sigma * nr_sigma - t0))).
  { unfold t. by rewrite gauss_last, arr_sub_scalar_last, Htl. }
  assert (Hgk : gauss amplitude sigma mu t !! k
                = Some (G (t0 + sigma * nr_sigma / 2 - t0))).
  { unfold t. by rewrite gauss_lookup, arr_sub_scalar_lookup, Hk. }
  assert (H05 : 0.5 = / 2) by lra.
  assert (Hmu : mu = sigma * nr_sigma / 2) by (unfold mu; lra).
  assert (Hedge : ∀ x, x = t0 - t0 ∨ x = t0 + sigma * nr_sigma - t0 →
                       G x = amplitude * exp (- (nr_sigma ^ 2 / 8))).
  { intros x Hx. unfold G. do 3 f_equal. rewrite Hmu, H05.
    destruct Hx as [-> | ->]; field; done. }
  assert (Hmid : G (t0 + sigma * nr_sigma / 2 - t0) = amplitude).
  { unfold G. rewrite Hmu, H05.
    replace (- (/ 2 * (t0 + sigma * nr_sigma / 2 - t0
                       - sigma * nr_sigma / 2) ^ 2 / sigma ^ 2))
      with 0 by (field; done).
    rewrite exp_0. ring. }
  eexists. split; [by apply subtract_offsets_inr|].
  rewrite arr_sub_scalar_lookup, Hgk, Hmid.
  rewrite !Hedge by auto. simpl. f_equal. lra.
Qed.

Lemma X8_peak_of_corrected_gauss_witness :
  (1 : R) ≠ 0
  ∧ [0; 2; 4] !! 0%nat = Some 0
  ∧ last [0; 2; 4] = Some (0 + 1 * 4)
  ∧ [0; 2; 4] !! 1%nat = Some (0 + 1 * 4 / 2)
  ∧ ∃ gauss_env',
      subtract_offsets (gauss 0.1 1 (1 * 4 / 2.0) (arr_sub_scalar [0; 2; 4] 0))
      = inr gauss_env'
      ∧ gauss_env' !! 1%nat = Some (0.1 * (1 - exp (- (4 ^ 2 / 8)))).
Proof.
  assert (H1 : (1 : R) ≠ 0) by lra.
  assert (Hl : last [0; 2; 4] = Some (0 + 1 * 4)).
  { simpl. f_equal. lra. }
  assert (Hk : [0; 2; 4] !! 1%nat = Some (0 + 1 * 4 / 2)).
  { simpl. f_equal. lra. }
  split; [exact H1|]. split; [reflexivity|]. split; [exact Hl|].
  split; [exact Hk|].
  exact (X8_peak_of_corrected_gauss 0.1 1 4 [0; 2; 4] 0 1 H1 eq_refl Hl Hk).
Defined.

Lemma gauss_derivative amplitude sigma mu x :
  sigma ≠ 0 →
  derivable_pt_lim
    (λ t, amplitude * exp (- (0.5 * (t - mu) ^ 2 / sigma ^ 2))) x
    (- (x - mu) / sigma ^ 2
     * (amplitude * exp (- (0.5 * (x - mu) ^ 2 / sigma ^ 2)))).
Proof.
  intros Hs.
  assert (H05 : 0.5 = / 2) by lra. rewrite H05.
  set (u := λ t : R, - (/ 2 * (t - mu) ^ 2 / sigma ^ 2)).
  assert (Hu : derivable_pt_lim u x (- (x - mu) / sigma ^ 2)).
  { unfold u.
    replace (- (x - mu) / sigma ^ 2)
      with (- (/ 2 / sigma ^ 2 * (1 * (x - mu) + (x - mu) * 1)))
      by (field; auto).
    apply derivable_pt_lim_opp
      with (f := λ t, / 2 * (t - mu) ^ 2 / sigma ^ 2).
    assert (He : derivable_pt_lim
                   (mult_real_fct (/ 2 / sigma ^ 2)
                      (λ t, (t - mu) * (t - mu))) x
                   (/ 2 / sigma ^ 2 * (1 * (x - mu) + (x - mu) * 1))).
    { apply derivable_pt_lim_scal.
      apply derivable_pt_lim_mult
        with (f1 := λ t, t - mu) (f2 := λ t, t - mu);
        (replace 1 with (1 - 0) by ring;
         apply derivable_pt_lim_minus with (f1 := id) (f2 := λ _, mu);
         [apply derivable_pt_lim_id | apply derivable_pt_lim_const]). }
    intros eps Heps. destruct (He eps Heps) as [delta Hd]. exists delta.
    intros h Hh Hhd. specialize (Hd h Hh Hhd). unfold mult_real_fct in Hd.
    replace (/ 2 * (x + h - mu) ^ 2 / sigma ^ 2)
      with (/ 2 / sigma ^ 2 * ((x + h - mu) * (x + h - mu)))
      by (field; auto).
    replace (/ 2 * (x - mu) ^ 2 / sigma ^ 2)
      with (/ 2 / sigma ^ 2 * ((x - mu) * (x - mu))) by (field; auto).
    exact Hd. }
  replace (- (x - mu) / sigma ^ 2
           * (amplitude * exp (- (/ 2 * (x - mu) ^ 2 / sigma ^ 2))))
    with (amplitude * (exp (u x) * (- (x - mu) / sigma ^ 2)))
    by (unfold u; ring).
  apply derivable_pt_lim_scal with (f := λ t, exp (u t)).
  apply (derivable_pt_lim_comp u exp); [exact Hu|].
  apply derivable_pt_lim_exp.
Qed.

(** X9. The derivative envelope is the time derivative of the Gaussian
    envelope, scaled by [motzoi·sigma]: at every sample [ti] of the local
    time axis, before the offsets are subtracted, its value is
    [motzoi·sigma·D] where [D] is the derivative at [ti] of
    [t ↦ amplitude·exp(−(t−mu)²/(2·sigma²))]. *)
Theorem X9_deriv_envelope_is_derivative (amplitude sigma mu motzoi : R)
    (t : array) (k : nat) (ti : R) :
  sigma ≠ 0 → t !! k = Some ti →
  ∃ D,
    derivable_pt_lim
      (λ x, amplitude * exp (- (0.5 * (x - mu) ^ 2 / sigma ^ 2))) ti D
    ∧ deriv_gauss motzoi sigma mu t (gauss amplitude sigma mu t) !! k
      = Some (motzoi * sigma * D).
Proof.
  intros Hs Hk. eexists. split; [by apply gauss_derivative|].
  erewrite deriv_gauss_lookup; [|exact Hk|by rewrite gauss_lookup, Hk].
  f_equal. field. done.
Qed.

Lemma X9_deriv_envelope_is_derivative_witness :
  (0.25 : R) ≠ 0 ∧ [0; 0.5; 1] !! 1%nat = Some 0.5
  ∧ ∃ D,
      derivable_pt_lim
        (λ x, 0.1 * exp (- (0.5 * (x - 0.5) ^ 2 / 0.25 ^ 2))) 0.5 D
      ∧ deriv_gauss 1 0.25 0.5 [0; 0.5; 1] (gauss 0.1 0.25 0.5 [0; 0.5; 1])
          !! 1%nat = Some (1 * 0.25 * D).
Proof.
  assert (Hs : (0.25 : R) ≠ 0) by lra.
  split; [exact Hs|]. split; [reflexivity|].
  exact (X9_deriv_envelope_is_derivative 0.1 0.25 0.5 1 [0; 0.5; 1] 1 0.5
           Hs eq_refl).
Defined.

(** ** Scaling the amplitude *)

Lemma gauss_scale k amplitude sigma mu (t : array) :
  gauss (k * amplitude) sigma mu t = map (Rmult k) (gauss amplitude sigma mu t).
Proof.
  unfold gauss. rewrite map_map. apply map_ext. intros ti. ring.
Qed.

Lemma deriv_gauss_scale k motzoi sigma mu (t g : array) :
  deriv_gauss motzoi sigma mu t (map (Rmult k) g)
  = map (Rmult k) (deriv_gauss motzoi sigma mu t g).
Proof.
  unfold deriv_gauss. revert g.
  induction t as [|ti t IH]; intros [|gi g]; simpl; try done.
  rewrite IH. f_equal. unfold Rdiv. ring.
Qed.

Lemma arr_sub_scalar_scale k (a : array) x :
  arr_sub_scalar (map (Rmult k) a) (k * x)
  = map (Rmult k) (arr_sub_scalar a x).
Proof.
  unfold arr_sub_scalar. rewrite !map_map. apply map_ext. intros v. ring.
Qed.

Lemma subtract_offsets_scale k (env : array) :
  subtract_offsets (map (Rmult k) env) = wf_scale k (subtract_offsets env).
Proof.
  unfold subtract_offsets, wf_scale, getitem_last. rewrite getitem_map.
  destruct (getitem env 0) as [|a]; [done|]. cbn [bind].
  change (map (Rmult k) env) with (Rmult k <$> env). rewrite fmap_last.
  destruct (last env) as [b|]; [|done]. cbn [bind ret fmap option_fmap option_map].
  rewrite <- arr_sub_scalar_scale. do 2 f_equal. lra.
Qed.

Lemma broadcast_to_scale k n (a : array) :
  broadcast_to n (map (Rmult k) a) = map (Rmult k) (broadcast_to n a).
Proof.
  unfold broadcast_to. rewrite length_map. case_decide as Hn; [done|].
  destruct a as [|x [|y a]]; try done. clear Hn. simpl.
  induction n as [|n IH]; simpl; [done|]. by rewrite IH.
Qed.

Lemma map3_scale k (s : R → R → R → R) (t a b : array) :
  (∀ x u v, s x (k * u) (k * v) = k * s x u v) →
  map3 s t (map (Rmult k) a) (map (Rmult k) b) = map (Rmult k) (map3 s t a b).
Proof.
  intros Hs. revert a b.
  induction t as [|x t IH]; intros [|u a] [|v b]; simpl; try done.
  by rewrite Hs, IH.
Qed.

Lemma apply_modulation_scale k (I_env Q_env tvals : array) f ph phi_skew alpha :
  apply_modulation (map (Rmult k) I_env) (map (Rmult k) Q_env) tvals
    f ph phi_skew alpha
  = let* r := apply_modulation I_env Q_env tvals f ph phi_skew alpha in
    ret (map (Rmult k) r.1, map (Rmult k) r.2).
Proof.
  unfold apply_modulation. rewrite !length_map.
  destruct (broadcast_len _ _) as [|n1]; [done|]. cbn [bind].
  destruct (broadcast_len _ _) as [|n]; [done|]. cbn [bind ret fst snd].
  rewrite !broadcast_to_scale. do 2 f_equal; apply map3_scale; intros x u v.
  - unfold mod_I_at. ring.
  - unfold mod_Q_at, Rdiv. ring.
Qed.

Lemma zip_with_plus_scale k (a b : array) :
  zip_with Rplus (map (Rmult k) a) (map (Rmult k) b)
  = map (Rmult k) (zip_with Rplus a b).
Proof.
  revert b. induction a as [|x a IH]; intros [|y b]; simpl; try done.
  rewrite IH. f_equal. ring.
Qed.

Lemma iadd_slice_scale k (wf v : array) i j :
  iadd_slice (map (Rmult k) wf) i j (map (Rmult k) v)
  = wf_scale k (iadd_slice wf i j v).
Proof.
  unfold iadd_slice, wf_scale, slice.
  rewrite !skipn_map, !firstn_map, !length_map.
  case_decide; [|done]. cbn [bind ret].
  rewrite broadcast_to_scale, zip_with_plus_scale.
  by rewrite !map_app.
Qed.

Lemma np_zeros_scale k n : np_zeros n = map (Rmult k) (np_zeros n).
Proof.
  unfold np_zeros. induction n as [|n IH]; simpl; [done|].
  rewrite <- IH. f_equal. ring.
Qed.

(** One stage of [chan_wf] under a scaled amplitude. *)
Lemma modulate_stage_scale k (pick_I : bool) (wf I_env Q_env tvals : array)
    idx0 idx1 f ph phi_skew alpha :
  (let* (I_mod, Q_mod) :=
     apply_modulation (map (Rmult k) I_env) (map (Rmult k) Q_env)
       (slice tvals idx0 idx1) f ph phi_skew alpha in
   iadd_slice (map (Rmult k) wf) idx0 idx1 (if pick_I then I_mod else Q_mod))
  = wf_scale k
      (let* (I_mod, Q_mod) :=
         apply_modulation I_env Q_env (slice tvals idx0 idx1)
           f ph phi_skew alpha in
       iadd_slice wf idx0 idx1 (if pick_I then I_mod else Q_mod)).
Proof.
  rewrite apply_modulation_scale.
  destruct (apply_modulation I_env Q_env _ _ _ _ _) as [|[I_mod Q_mod]];
    [done|].
  cbn [bind ret fst snd]. destruct pick_I; apply iadd_slice_scale.
Qed.

(** The two conditional stages that end [SSB_DRAG_pulse.chan_wf]. *)
Lemma SSB_stages_scale k (chan I Q : string) (wf g d tvals : array)
    idx0 idx1 f ph phi_skew alpha :
  (let* wf :=
     if decide (chan = I) then
       let* (I_mod, Q_mod) :=
         apply_modulation (map (Rmult k) g) (map (Rmult k) d)
           (slice tvals idx0 idx1) f ph phi_skew alpha in
       iadd_slice (map (Rmult k) wf) idx0 idx1 I_mod
     else ret (map (Rmult k) wf) in
   let* wf :=
     if decide (chan = Q) then
       let* (I_mod, Q_mod) :=
         apply_modulation (map (Rmult k) g) (map (Rmult k) d)
           (slice tvals idx0 idx1) f ph phi_skew alpha in
       iadd_slice wf idx0 idx1 Q_mod
     else ret wf in
   ret wf)
  = wf_scale k
      (let* wf :=
         if decide (chan = I) then
           let* (I_mod, Q_mod) :=
             apply_modulation g d (slice tvals idx0 idx1)
               f ph phi_skew alpha in
           iadd_slice wf idx0 idx1 I_mod
         else ret wf in
       let* wf :=
         if decide (chan = Q) then
           let* (I_mod, Q_mod) :=
             apply_modulation g d (slice tvals idx0 idx1)
               f ph phi_skew alpha in
           iadd_slice wf idx0 idx1 Q_mod
         else ret wf in
       ret wf).
Proof.
  assert (Hstage2 : ∀ wf1 : array,
    (let* wf :=
       if decide (chan = Q) then
         let* (I_mod, Q_mod) :=
           apply_modulation (map (Rmult k) g) (map (Rmult k) d)
             (slice tvals idx0 idx1) f ph phi_skew alpha in
         iadd_slice (map (Rmult k) wf1) idx0 idx1 Q_mod
       else ret (map (Rmult k) wf1) in
     ret wf)
    = wf_scale k
        (let* wf :=
           if decide (chan = Q) then
             let* (I_mod, Q_mod) :=
               apply_modulation g d (slice tvals idx0 idx1)
                 f ph phi_skew alpha in
             iadd_slice wf1 idx0 idx1 Q_mod
           else ret wf1 in
         ret wf)).
  { intros wf1. destruct (decide (chan = Q)); [|done].
    rewrite (modulate_stage_scale k false).
    by destruct (let* (I_mod, Q_mod) := apply_modulation g d _ _ _ _ _
                 in iadd_slice wf1 idx0 idx1 _). }
  destruct (decide (chan = I)).
  - rewrite (modulate_stage_scale k true).
    destruct (let* (I_mod, Q_mod) := apply_modulation g d _ _ _ _ _
              in iadd_slice wf idx0 idx1 _) as [e'|wf1]; [done|].
    cbn [wf_scale bind ret]. apply Hstage2.
  - cbn [bind ret]. apply Hstage2.
Qed.

Lemma SSB_chan_wf_scale k (x : SSB_DRAG_pulse.t) chan tvals :
  SSB_DRAG_pulse.chan_wf
    (SSB_DRAG_pulse.with_amplitude (k * SSB_DRAG_pulse.amplitude x) x)
    chan tvals
  = wf_scale k (SSB_DRAG_pulse.chan_wf x chan tvals).
Proof.
  unfold SSB_DRAG_pulse.chan_wf, SSB_DRAG_pulse.chan_wf_with.
  cbn [SSB_DRAG_pulse.with_amplitude SSB_DRAG_pulse.length
       SSB_DRAG_pulse.phaselock SSB_DRAG_pulse.amplitude SSB_DRAG_pulse.sigma
       SSB_DRAG_pulse.motzoi SSB_DRAG_pulse.mod_frequency SSB_DRAG_pulse.phase
       SSB_DRAG_pulse.phi_skew SSB_DRAG_pulse.alpha
       SSB_DRAG_pulse.I_channel SSB_DRAG_pulse.Q_channel].
  destruct (active_window _ _) as [|[idx0 idx1]]; [done|]. cbn [bind].
  destruct (getitem tvals 0) as [|t0]; [done|]. cbn [bind].
  destruct (shift_origin _ _ _) as [|tv']; [done|]. cbn [bind].
  rewrite gauss_scale, deriv_gauss_scale, !subtract_offsets_scale.
  destruct (subtract_offsets (gauss _ _ _ _)) as [|g']; [done|].
  cbn [wf_scale bind ret].
  destruct (subtract_offsets (deriv_gauss _ _ _ _ _)) as [|d']; [done|].
  cbn [wf_scale bind ret].
  etransitivity; [|apply SSB_stages_scale].
  by rewrite <- (np_zeros_scale k).
Qed.

Lemma Mux_chan_wf_scale k (x : Mux_DRAG_pulse.t) chan tvals :
  Mux_DRAG_pulse.chan_wf
    (Mux_DRAG_pulse.with_amplitude (k * Mux_DRAG_pulse.amplitude x) x)
    chan tvals
  = wf_scale k (Mux_DRAG_pulse.chan_wf x chan tvals).
Proof.
  unfold Mux_DRAG_pulse.chan_wf, Mux_DRAG_pulse.chan_wf_with.
  cbn [Mux_DRAG_pulse.with_amplitude Mux_DRAG_pulse.length
       Mux_DRAG_pulse.phaselock Mux_DRAG_pulse.amplitude Mux_DRAG_pulse.sigma
       Mux_DRAG_pulse.motzoi Mux_DRAG_pulse.mod_frequency Mux_DRAG_pulse.phase
       Mux_DRAG_pulse.G_phi_skew Mux_DRAG_pulse.G_alpha
       Mux_DRAG_pulse.D_phi_skew Mux_DRAG_pulse.D_alpha
       Mux_DRAG_pulse.GI_channel Mux_DRAG_pulse.GQ_channel
       Mux_DRAG_pulse.DI_channel Mux_DRAG_pulse.DQ_channel].
  destruct (active_window _ _) as [|[idx0 idx1]]; [done|]. cbn [bind].
  destruct (getitem tvals 0) as [|t0]; [done|]. cbn [bind].
  destruct (shift_origin _ _ _) as [|tv']; [done|]. cbn [bind].
  rewrite gauss_scale.
  destruct (decide (chan ∈ [_; _])); [|destruct (decide (chan ∈ [_; _]))].
  - rewrite subtract_offsets_scale.
    destruct (subtract_offsets (gauss _ _ _ _)) as [|g']; [done|].
    cbn [wf_scale bind ret].
    rewrite (np_zeros_scale k (length tv')), (np_zeros_scale k (length tvals)).
    destruct (decide (chan = Mux_DRAG_pulse.GI_channel x)).
    + rewrite (modulate_stage_scale k true).
      by rewrite <- !np_zeros_scale.
    + rewrite (modulate_stage_scale k false).
      by rewrite <- !np_zeros_scale.
  - rewrite deriv_gauss_scale, subtract_offsets_scale.
    destruct (subtract_offsets (deriv_gauss _ _ _ _ _)) as [|d']; [done|].
    cbn [wf_scale bind ret].
    rewrite (np_zeros_scale k (length tv')), (np_zeros_scale k (length tvals)).
    destruct (decide (chan = Mux_DRAG_pulse.DI_channel x)).
    + rewrite (modulate_stage_scale k true).
      by rewrite <- !np_zeros_scale.
    + rewrite (modulate_stage_scale k false).
      by rewrite <- !np_zeros_scale.
  - cbn [wf_scale bind ret]. by rewrite <- np_zeros_scale.
Qed.

(** X10. The waveform of the Gaussian classes is linear in the
    amplitude: multiplying the amplitude of a single or a multiplexed
    DRAG pulse by [k] multiplies every sample of every channel's waveform
    by [k], on every grid, and changes nothing in when an exception is
    raised. *)
Theorem X10_waveform_scales_with_amplitude (k : R) (chan : string)
    (tvals : array) :
  (∀ x : SSB_DRAG_pulse.t,
     SSB_DRAG_pulse.chan_wf
       (SSB_DRAG_pulse.with_amplitude (k * SSB_DRAG_pulse.amplitude x) x)
       chan tvals
     = wf_scale k (SSB_DRAG_pulse.chan_wf x chan tvals))
  ∧ (∀ x : Mux_DRAG_pulse.t,
       Mux_DRAG_pulse.chan_wf
         (Mux_DRAG_pulse.with_amplitude (k * Mux_DRAG_pulse.amplitude x) x)
         chan tvals
       = wf_scale k (Mux_DRAG_pulse.chan_wf x chan tvals)).
Proof.
  split; intros x; [apply SSB_chan_wf_scale | apply Mux_chan_wf_scale].
Qed.

(** ** The derivative channels of the multiplexed pulse *)

Lemma map3_zeros (s : R → R → R → R) (t : array) :
  (∀ x, s x 0 0 = 0) →
  map3 s t (np_zeros (length t)) (np_zeros (length t)) = np_zeros (length t).
Proof.
  intros Hs. unfold np_zeros. induction t as [|x t IH]; simpl; [done|].
  by rewrite Hs, IH.
Qed.

Lemma sample_at_zero pick_I f ph phi_skew alpha x :
  sample_at pick_I f ph phi_skew alpha x 0 0 = 0.
Proof.
  unfold sample_at, mod_I_at, mod_Q_at, Rdiv. destruct pick_I; ring.
Qed.

(** X11. A multiplexed DRAG pulse with [motzoi = 0] is silent on its
    derivative channels: for a width [sigma ≠ 0] and skew parameters with
    [D_alpha·cos(D_phi_skew) ≠ 0], with DI and DQ distinct from each other
    and from GI and GQ, on a non-empty grid that ends within the pulse,
    the DI and the DQ waveforms are zero at every sample, whatever the
    modulation frequency and the phase. *)
Theorem X11_mux_derivative_channels_silent (x : Mux_DRAG_pulse.t)
    (tvals : array) (t0 tl : R) :
  Mux_DRAG_pulse.sigma x ≠ 0 →
  Mux_DRAG_pulse.D_alpha x * cos (deg2rad (Mux_DRAG_pulse.D_phi_skew x))
  ≠ 0 →
  Mux_DRAG_pulse.motzoi x = 0 →
  Mux_DRAG_pulse.DI_channel x ≠ Mux_DRAG_pulse.DQ_channel x →
  Mux_DRAG_pulse.DI_channel x ∉
    [Mux_DRAG_pulse.GI_channel x; Mux_DRAG_pulse.GQ_channel x] →
  Mux_DRAG_pulse.DQ_channel x ∉
    [Mux_DRAG_pulse.GI_channel x; Mux_DRAG_pulse.GQ_channel x] →
  tvals !! 0%nat = Some t0 → last tvals = Some tl →
  tl <= t0 + Mux_DRAG_pulse.length x →
  Mux_DRAG_pulse.chan_wf x (Mux_DRAG_pulse.DI_channel x) tvals
  = inr (np_zeros (length tvals))
  ∧ Mux_DRAG_pulse.chan_wf x (Mux_DRAG_pulse.DQ_channel x) tvals
    = inr (np_zeros (length tvals)).
Proof.
  intros _ _ Hm HD HDI HDQ Ht0 Htl Hle.
  assert (Hn : (0 < length tvals)%nat) by (by eapply lookup_lt_Some).
  assert (H : ∀ pick_I : bool,
    Mux_DRAG_pulse.chan_wf x
      (if pick_I then Mux_DRAG_pulse.DI_channel x
       else Mux_DRAG_pulse.DQ_channel x) tvals
    = inr (np_zeros (length tvals))).
  { intros pick_I. rewrite (Mux_chan_wf_D x pick_I tvals HD HDI HDQ).
    rewrite (active_window_full tvals _ t0 tl) by done. cbn [bind].
    unfold getitem. rewrite Ht0. cbn [bind ret].
    destruct (shift_origin_length (Mux_DRAG_pulse.phaselock x) tvals Hn)
      as (tv' & -> & Hlen).
    cbn [bind].
    rewrite Hm, deriv_gauss_motzoi_0
      by (by rewrite length_gauss).
    rewrite length_arr_sub_scalar, subtract_offsets_zeros by done.
    cbn [bind]. rewrite <- Hlen.
    rewrite modulate_into_full by (by rewrite ?length_np_zeros).
    rewrite map3_zeros by apply sample_at_zero.
    by rewrite zip_with_zeros_l by apply length_np_zeros. }
  split; [apply (H true) | apply (H false)].
Qed.

Lemma X11_mux_derivative_channels_silent_witness :
  let x := Mux_DRAG_pulse.mk "X180" 0 0 None None "ch1" "ch2" "ch3" "ch4"
             ["ch1"; "ch2"; "ch3"; "ch4"]
             0.1 0.25e-6 4 0 1e6 0 true 1 0 1 0 (0.25e-6 * 4) in
  Mux_DRAG_pulse.sigma x ≠ 0
  ∧ Mux_DRAG_pulse.D_alpha x * cos (deg2rad (Mux_DRAG_pulse.D_phi_skew x))
    ≠ 0
  ∧ Mux_DRAG_pulse.motzoi x = 0
  ∧ Mux_DRAG_pulse.DI_channel x ≠ Mux_DRAG_pulse.DQ_channel x
  ∧ (Mux_DRAG_pulse.DI_channel x ∉
       [Mux_DRAG_pulse.GI_channel x; Mux_DRAG_pulse.GQ_channel x])
  ∧ (Mux_DRAG_pulse.DQ_channel x ∉
       [Mux_DRAG_pulse.GI_channel x; Mux_DRAG_pulse.GQ_channel x])
  ∧ [0; 0.5e-6; 1e-6] !! 0%nat = Some 0
  ∧ last [0; 0.5e-6; 1e-6] = Some 1e-6
  ∧ 1e-6 <= 0 + Mux_DRAG_pulse.length x
  ∧ Mux_DRAG_pulse.chan_wf x (Mux_DRAG_pulse.DI_channel x) [0; 0.5e-6; 1e-6]
    = inr (np_zeros (length [0; 0.5e-6; 1e-6]))
  ∧ Mux_DRAG_pulse.chan_wf x (Mux_DRAG_pulse.DQ_channel x) [0; 0.5e-6; 1e-6]
    = inr (np_zeros (length [0; 0.5e-6; 1e-6])).
Proof.
  intros x.
  assert (HD : Mux_DRAG_pulse.DI_channel x ≠ Mux_DRAG_pulse.DQ_channel x)
    by discriminate.
  assert (HDI : Mux_DRAG_pulse.DI_channel x ∉
                  [Mux_DRAG_pulse.GI_channel x; Mux_DRAG_pulse.GQ_channel x]).
  { rewrite elem_of_pair. intros [?|?]; discriminate. }
  assert (HDQ : Mux_DRAG_pulse.DQ_channel x ∉
                  [Mux_DRAG_pulse.GI_channel x; Mux_DRAG_pulse.GQ_channel x]).
  { rewrite elem_of_pair. intros [?|?]; discriminate. }
  assert (Hle : 1e-6 <= 0 + Mux_DRAG_pulse.length x) by (simpl; lra).
  assert (Hs : Mux_DRAG_pulse.sigma x ≠ 0) by (simpl; lra).
  assert (Ha : Mux_DRAG_pulse.D_alpha x
               * cos (deg2rad (Mux_DRAG_pulse.D_phi_skew x)) ≠ 0).
  { cbn [x Mux_DRAG_pulse.D_alpha Mux_DRAG_pulse.D_phi_skew]. unfold deg2rad.
    replace (2 * PI * 0 / 360) with 0 by lra. rewrite cos_0. lra. }
  split; [exact Hs|]. split; [exact Ha|].
  split; [reflexivity|]. split; [exact HD|]. split; [exact HDI|].
  split; [exact HDQ|]. split; [reflexivity|]. split; [reflexivity|].
  split; [exact Hle|].
  exact (X11_mux_derivative_channels_silent x [0; 0.5e-6; 1e-6] 0 1e-6
           Hs Ha eq_refl HD HDI HDQ eq_refl eq_refl Hle).
Defined.

(** ** Reconfiguration, continued *)

(** Brings every lookup in a chain of pops back to the dictionary the
    call received. *)
Ltac lookups_to_kw :=
  unfold pop_num, pop_bool, pop_str; cbn [fst snd];
  rewrite ?lookup_delete_ne by done.

Lemma MW_call_idempotent (x : MW_IQmod_pulse.t) kw :
  MW_IQmod_pulse.call (MW_IQmod_pulse.call x kw) kw = MW_IQmod_pulse.call x kw.
Proof.
  unfold MW_IQmod_pulse.call. lookups_to_kw.
  cbn [MW_IQmod_pulse.name MW_IQmod_pulse.I_channel MW_IQmod_pulse.Q_channel
       MW_IQmod_pulse.channels MW_IQmod_pulse.mod_frequency
       MW_IQmod_pulse.amplitude MW_IQmod_pulse.length MW_IQmod_pulse.phase
       MW_IQmod_pulse.phaselock MW_IQmod_pulse.alpha MW_IQmod_pulse.phi_skew].
  f_equal; by repeat case_match.
Qed.

Lemma SSB_call_idempotent (x : SSB_DRAG_pulse.t) kw :
  SSB_DRAG_pulse.call (SSB_DRAG_pulse.call x kw) kw = SSB_DRAG_pulse.call x kw.
Proof.
  unfold SSB_DRAG_pulse.call. lookups_to_kw.
  cbn [SSB_DRAG_pulse.name SSB_DRAG_pulse.I_channel SSB_DRAG_pulse.Q_channel
       SSB_DRAG_pulse.channels SSB_DRAG_pulse.amplitude SSB_DRAG_pulse.sigma
       SSB_DRAG_pulse.nr_sigma SSB_DRAG_pulse.motzoi
       SSB_DRAG_pulse.mod_frequency SSB_DRAG_pulse.phase
       SSB_DRAG_pulse.phaselock SSB_DRAG_pulse.alpha SSB_DRAG_pulse.phi_skew
       SSB_DRAG_pulse.length].
  f_equal; by repeat case_match.
Qed.

Lemma Mux_call_idempotent (x : Mux_DRAG_pulse.t) kw :
  Mux_DRAG_pulse.call (Mux_DRAG_pulse.call x kw) kw = Mux_DRAG_pulse.call x kw.
Proof.
  unfold Mux_DRAG_pulse.call. lookups_to_kw.
  cbn [Mux_DRAG_pulse.name Mux_DRAG_pulse.start_offset
       Mux_DRAG_pulse.stop_offset Mux_DRAG_pulse._t0 Mux_DRAG_pulse._clock
       Mux_DRAG_pulse.GI_channel Mux_DRAG_pulse.GQ_channel
       Mux_DRAG_pulse.DI_channel Mux_DRAG_pulse.DQ_channel
       Mux_DRAG_pulse.channels Mux_DRAG_pulse.amplitude Mux_DRAG_pulse.sigma
       Mux_DRAG_pulse.nr_sigma Mux_DRAG_pulse.motzoi
       Mux_DRAG_pulse.mod_frequency Mux_DRAG_pulse.phase
       Mux_DRAG_pulse.phaselock Mux_DRAG_pulse.G_alpha
       Mux_DRAG_pulse.G_phi_skew Mux_DRAG_pulse.D_alpha
       Mux_DRAG_pulse.D_phi_skew Mux_DRAG_pulse.length].
  f_equal; by repeat case_match.
Qed.

(** X12. Reconfiguring is idempotent: calling a pulse twice with the same
    keyword arguments leaves it as after the first call, for each of the
    three classes and every keyword dictionary. *)
Theorem X12_reconfigure_idempotent (p : Pulse.t) (kw : gmap string value) :
  Pulse.call (Pulse.call p kw) kw = Pulse.call p kw.
Proof.
  destruct p as [x|x|x]; cbn [Pulse.call]; f_equal.
  - apply MW_call_idempotent.
  - apply SSB_call_idempotent.
  - apply Mux_call_idempotent.
Qed.

Lemma call_empty p : derived_ok p → Pulse.call p ∅ = p.
Proof.
  destruct p as [x|x|x]; cbn [Pulse.call derived_ok]; intros Hok;
    apply (f_equal _).
  - unfold MW_IQmod_pulse.call.
    rewrite !pop_num_empty, pop_bool_empty. by destruct x.
  - unfold SSB_DRAG_pulse.call.
    rewrite !pop_num_empty, pop_bool_empty. rewrite <- Hok. by destruct x.
  - unfold Mux_DRAG_pulse.call.
    rewrite !pop_str_empty, !pop_num_empty, pop_bool_empty.
    destruct Hok as [Hlen Hch]. rewrite <- Hlen, <- Hch. by destruct x.
Qed.

(** X13. A call without keyword arguments changes nothing: every pulse
    instance (built by a constructor, then reconfigured any number of
    times) is left exactly as it was, the recomputed duration and channel
    list included. *)
Theorem X13_reconfigure_without_keywords (p : Pulse.t) :
  Pulse.instance p → Pulse.call p ∅ = p.
Proof. intros Hp. apply call_empty. by apply instance_derived_ok. Qed.

Lemma X13_reconfigure_without_keywords_witness :
  let p := Pulse.call (Pulse.Mux default_Mux) {["sigma" := VNum 1e-7]} in
  Pulse.instance p ∧ Pulse.call p ∅ = p.
Proof.
  intros p.
  assert (Hp : Pulse.instance p).
  { apply Pulse.reconfigured. apply Pulse.new_Mux. }
  split; [exact Hp|]. exact (X13_reconfigure_without_keywords p Hp).
Defined.

(** X14. Constructing a pulse with keyword arguments gives the same
    object as constructing it with the defaults and reconfiguring it with
    those arguments, provided the arguments contain none of the keywords
    that only one of [__init__] and [__call__] reads ([alpha] and
    [phi_skew] for the single DRAG pulse; [motzoi] and the four channel
    keywords for the multiplexed pulse; none for the block pulse). *)
Theorem X14_construct_is_default_then_call (c : constructor)
    (kw : gmap string value) :
  Forall (λ key, kw !! key = None) (unshared_keys c) →
  construct c kw = Pulse.call (construct c ∅) kw.
Proof.
  destruct c; cbn [construct unshared_keys Pulse.call]; intros Hkeys;
    apply (f_equal _).
  - unfold MW_IQmod_pulse.call, MW_IQmod_pulse.init.
    rewrite !pop_num_empty, pop_bool_empty. by lookups_to_kw.
  - apply Forall_cons in Hkeys as [Ha Hkeys].
    apply Forall_cons in Hkeys as [Hp _].
    unfold SSB_DRAG_pulse.call, SSB_DRAG_pulse.init.
    rewrite !pop_num_empty, pop_bool_empty. lookups_to_kw.
    by rewrite Ha, Hp.
  - apply Forall_cons in Hkeys as [Hm Hkeys].
    apply Forall_cons in Hkeys as [HGI Hkeys].
    apply Forall_cons in Hkeys as [HGQ Hkeys].
    apply Forall_cons in Hkeys as [HDI Hkeys].
    apply Forall_cons in Hkeys as [HDQ _].
    unfold Mux_DRAG_pulse.call, Mux_DRAG_pulse.init.
    rewrite !pop_num_empty, pop_bool_empty. lookups_to_kw.
    by rewrite Hm, HGI, HGQ, HDI, HDQ.
Qed.

Lemma X14_construct_is_default_then_call_witness :
  let c := Construct_SSB "X180" "ch1" "ch2" in
  let kw : gmap string value := {["sigma" := VNum 1e-7]} in
  Forall (λ key, kw !! key = None) (unshared_keys c)
  ∧ construct c kw = Pulse.call (construct c ∅) kw.
Proof.
  intros c kw.
  assert (H : Forall (λ key, kw !! key = None) (unshared_keys c)).
  { repeat constructor. }
  split; [exact H|]. exact (X14_construct_is_default_then_call c kw H).
Defined.

(** ** The channel list *)

Lemma instance_channels (p : Pulse.t) :
  Pulse.instance p → Pulse.channels p = channel_attributes p.
Proof.
  induction 1 as [| | |[x|x|x] kw _ IH]; [done..| | |done].
  - exact IH.
  - exact IH.
Qed.

(** X15. The channel list of a pulse instance always agrees with its
    channel attributes: [channels] is [I_channel, Q_channel] for the block
    and the single DRAG pulse and [GI, GQ, DI, DQ] for the multiplexed
    pulse, also after the channels of the latter were reconfigured. *)
Theorem X15_channels_match_attributes (p : Pulse.t) :
  Pulse.instance p → Pulse.channels p = channel_attributes p.
Proof. apply instance_channels. Qed.

Lemma X15_channels_match_attributes_witness :
  let p := Pulse.call (Pulse.Mux default_Mux) {["DI_channel" := VStr "ch7"]} in
  Pulse.instance p ∧ Pulse.channels p = channel_attributes p.
Proof.
  intros p.
  assert (Hp : Pulse.instance p).
  { apply Pulse.reconfigured. apply Pulse.new_Mux. }
  split; [exact Hp|]. exact (X15_channels_match_attributes p Hp).
Defined.

(** ** Channels a pulse does not own *)

Lemma window_first_sample (tvals : array) len idx0 idx1 :
  active_window tvals len = inr (idx0, idx1) →
  idx0 = 0%nat ∧ ∃ t0 rest, tvals = t0 :: rest.
Proof.
  intros Hw. destruct (active_window_bounds _ _ _ _ Hw) as [-> Hidx].
  split; [done|]. destruct tvals as [|t0 rest]; [simpl in Hidx; lia|].
  by eexists _, _.
Qed.

Lemma MW_chan_wf_foreign (x : MW_IQmod_pulse.t) chan (tvals : array) t0 tl :
  chan ≠ MW_IQmod_pulse.I_channel x → chan ≠ MW_IQmod_pulse.Q_channel x →
  tvals !! 0%nat = Some t0 → last tvals = Some tl →
  tl <= t0 + MW_IQmod_pulse.length x →
  MW_IQmod_pulse.chan_wf x chan tvals = inr (np_zeros (length tvals)).
Proof.
  intros HI HQ Ht0 Htl Hle. unfold MW_IQmod_pulse.chan_wf.
  rewrite (active_window_full tvals _ t0 tl) by done. cbn [bind].
  assert (Hn : (0 < length tvals)%nat) by (by eapply lookup_lt_Some).
  destruct (shift_origin_length (MW_IQmod_pulse.phaselock x) tvals Hn)
    as (tv' & -> & Hlen).
  cbn [bind]. rewrite <- Hlen.
  rewrite slice_full, apply_modulation_same_length
    by (by rewrite ?length_np_zeros, ?length_np_ones).
  cbn [bind ret]. by rewrite !decide_False by done.
Qed.

Lemma SSB_chan_wf_foreign_window (x : SSB_DRAG_pulse.t) chan (tvals : array)
    idx0 idx1 :
  chan ≠ SSB_DRAG_pulse.I_channel x → chan ≠ SSB_DRAG_pulse.Q_channel x →
  active_window tvals (SSB_DRAG_pulse.length x) = inr (idx0, idx1) →
  SSB_DRAG_pulse.chan_wf x chan tvals = inr (np_zeros (length tvals)).
Proof.
  intros HI HQ Hw.
  destruct (window_first_sample _ _ _ _ Hw) as (-> & t0 & rest & ->).
  unfold SSB_DRAG_pulse.chan_wf, SSB_DRAG_pulse.chan_wf_with.
  rewrite Hw. cbn [bind getitem lookup list_lookup ret].
  destruct (shift_origin_length (SSB_DRAG_pulse.phaselock x) (t0 :: rest))
    as (tv' & -> & Hlen'); [simpl; lia|].
  cbn [bind].
  set (t := arr_sub_scalar (t0 :: rest) t0).
  assert (Ht : length t = length (t0 :: rest)) by apply length_arr_sub_scalar.
  set (g := gauss _ _ _ t).
  assert (Hg : length g = length t) by apply length_gauss.
  destruct (subtract_offsets_nonempty g) as (g' & -> & Hg');
    [simpl in *; lia|].
  cbn [bind].
  destruct (subtract_offsets_nonempty
              (deriv_gauss (SSB_DRAG_pulse.motzoi x)
                 (SSB_DRAG_pulse.sigma x)
                 (SSB_DRAG_pulse.length x / 2.0) t g)) as (d' & -> & Hd').
  { rewrite length_deriv_gauss by done. simpl in *; lia. }
  cbn [bind]. by repeat (case_decide; [congruence|]).
Qed.

Lemma Mux_chan_wf_foreign_window (x : Mux_DRAG_pulse.t) chan (tvals : array)
    idx0 idx1 :
  chan ∉ [Mux_DRAG_pulse.GI_channel x; Mux_DRAG_pulse.GQ_channel x] →
  chan ∉ [Mux_DRAG_pulse.DI_channel x; Mux_DRAG_pulse.DQ_channel x] →
  active_window tvals (Mux_DRAG_pulse.length x) = inr (idx0, idx1) →
  Mux_DRAG_pulse.chan_wf x chan tvals = inr (np_zeros (length tvals)).
Proof.
  intros HG HD Hw.
  destruct (window_first_sample _ _ _ _ Hw) as (-> & t0 & rest & ->).
  unfold Mux_DRAG_pulse.chan_wf, Mux_DRAG_pulse.chan_wf_with.
  rewrite Hw. cbn [bind getitem lookup list_lookup ret].
  destruct (shift_origin_length (Mux_DRAG_pulse.phaselock x) (t0 :: rest))
    as (tv' & -> & Hlen'); [simpl; lia|].
  cbn [bind]. by rewrite !decide_False by done.
Qed.

Lemma not_elem_of_four {A : Type} (x a b c d : A) :
  x ∉ [a; b; c; d] → (x ∉ [a; b]) ∧ (x ∉ [c; d]).
Proof.
  intros Hx. split; intros [->| ->]%elem_of_pair; apply Hx;
    repeat constructor.
Qed.

Lemma not_elem_of_two {A : Type} (x a b : A) : x ∉ [a; b] → x ≠ a ∧ x ≠ b.
Proof. intros Hx. split; intros ->; apply Hx; apply elem_of_pair; auto. Qed.

(** X16. A channel that is not in the channel list of a pulse instance
    gets the zero waveform: on a non-empty grid that ends within the
    pulse, [chan_wf] returns an array of zeros of the grid's length, for
    each of the three classes. *)
Theorem X16_foreign_channel_zero_within_pulse (p : Pulse.t) (chan : string)
    (tvals : array) (t0 tl : R) :
  Pulse.instance p → chan ∉ Pulse.channels p →
  tvals !! 0%nat = Some t0 → last tvals = Some tl →
  tl <= t0 + duration p →
  Pulse.chan_wf p chan tvals = inr (np_zeros (length tvals)).
Proof.
  intros Hp Hch Ht0 Htl Hle. rewrite (instance_channels p Hp) in Hch.
  destruct p as [x|x|x]; cbn [Pulse.chan_wf duration channel_attributes] in *.
  - apply not_elem_of_two in Hch as [HI HQ]. by eapply MW_chan_wf_foreign.
  - apply not_elem_of_two in Hch as [HI HQ].
    eapply SSB_chan_wf_foreign_window; [done..|].
    by eapply active_window_full.
  - apply not_elem_of_four in Hch as [HG HD].
    eapply Mux_chan_wf_foreign_window; [done..|].
    by eapply active_window_full.
Qed.

Lemma X16_foreign_channel_zero_within_pulse_witness :
  Pulse.instance (Pulse.MW default_MW)
  ∧ ("ch7" ∉ Pulse.channels (Pulse.MW default_MW))
  ∧ [0; 0.5e-6; 1e-6] !! 0%nat = Some 0
  ∧ last [0; 0.5e-6; 1e-6] = Some 1e-6
  ∧ 1e-6 <= 0 + duration (Pulse.MW default_MW)
  ∧ Pulse.chan_wf (Pulse.MW default_MW) "ch7" [0; 0.5e-6; 1e-6]
    = inr (np_zeros (length [0; 0.5e-6; 1e-6])).
Proof.
  assert (Hp : Pulse.instance (Pulse.MW default_MW)) by apply Pulse.new_MW.
  assert (Hch : "ch7" ∉ Pulse.channels (Pulse.MW default_MW)).
  { intros [?|?]%elem_of_pair; discriminate. }
  assert (Hle : 1e-6 <= 0 + duration (Pulse.MW default_MW)).
  { cbn [duration]. rewrite default_MW_length. lra. }
  split; [exact Hp|]. split; [exact Hch|]. split; [reflexivity|].
  split; [reflexivity|]. split; [exact Hle|].
  exact (X16_foreign_channel_zero_within_pulse (Pulse.MW default_MW) "ch7"
           [0; 0.5e-6; 1e-6] 0 1e-6 Hp Hch eq_refl eq_refl Hle).
Defined.

(** X17. The two Gaussian classes look at the channel before they run
    the transform: for an instance with a non-negative duration, a
    channel outside its channel list gets the zero waveform on every
    non-empty grid, also one that extends past the pulse. *)
Theorem X17_gaussian_foreign_channel_zero (p : Pulse.t) (chan : string)
    (t0 : R) (rest : array) :
  Pulse.instance p → (∀ x, p ≠ Pulse.MW x) →
  chan ∉ Pulse.channels p → 0 <= duration p →
  Pulse.chan_wf p chan (t0 :: rest) = inr (np_zeros (length (t0 :: rest))).
Proof.
  intros Hp Hg Hch Hlen. rewrite (instance_channels p Hp) in Hch.
  destruct p as [x|x|x]; cbn [Pulse.chan_wf duration channel_attributes] in *.
  - by destruct (Hg x).
  - apply not_elem_of_two in Hch as [HI HQ].
    destruct (active_window_nonneg t0 rest _ Hlen) as [idx1 Hw].
    by eapply SSB_chan_wf_foreign_window.
  - apply not_elem_of_four in Hch as [HG HD].
    destruct (active_window_nonneg t0 rest _ Hlen) as [idx1 Hw].
    by eapply Mux_chan_wf_foreign_window.
Qed.

Lemma X17_gaussian_foreign_channel_zero_witness :
  Pulse.instance (Pulse.SSB default_SSB)
  ∧ (∀ x, Pulse.SSB default_SSB ≠ Pulse.MW x)
  ∧ ("ch7" ∉ Pulse.channels (Pulse.SSB default_SSB))
  ∧ 0 <= duration (Pulse.SSB default_SSB)
  ∧ Pulse.chan_wf (Pulse.SSB default_SSB) "ch7" (0 :: [1e-6; 2e-6])
    = inr (np_zeros (length (0 :: [1e-6; 2e-6]))).
Proof.
  assert (Hp : Pulse.instance (Pulse.SSB default_SSB)) by apply Pulse.new_SSB.
  assert (Hg : ∀ x, Pulse.SSB default_SSB ≠ Pulse.MW x) by discriminate.
  assert (Hch : "ch7" ∉ Pulse.channels (Pulse.SSB default_SSB)).
  { intros [?|?]%elem_of_pair; discriminate. }
  assert (Hlen : 0 <= duration (Pulse.SSB default_SSB)).
  { cbn [duration]. rewrite default_SSB_length. lra. }
  split; [exact Hp|]. split; [exact Hg|]. split; [exact Hch|].
  split; [exact Hlen|].
  exact (X17_gaussian_foreign_channel_zero (Pulse.SSB default_SSB) "ch7"
           0 [1e-6; 2e-6] Hp Hg Hch Hlen).
Defined.

(** * Properties of the heterodyne instrument *)

(** One step of [str.startswith] on two non-empty strings. *)
Lemma prefix_cons (a b : ascii) (s1 s2 : string) :
  String.prefix (String a s1) (String b s2)
  = if ascii_dec a b then String.prefix s1 s2 else false.
Proof. reflexivity. Qed.

Lemma prefix_On_not_Off (s : string) :
  String.prefix "On" s = true → String.prefix "Off" s = false.
Proof.
  destruct s as [|c1 [|c2 s]]; [done| |].
  - rewrite !prefix_cons. by destruct (ascii_dec "O" c1).
  - rewrite !prefix_cons. destruct (ascii_dec "O" c1); [|done].
    destruct (ascii_dec "n" c2) as [<-|]; [|done].
    intros _. by destruct (ascii_dec "f" "n").
Qed.

(** The report string is neither ['On'] nor ['Off']. *)
Lemma report_not_On_Off (a b : string) :
  "LO: " +:+ a +:+ ", RF: " +:+ b ≠ "On"
  ∧ "LO: " +:+ a +:+ ", RF: " +:+ b ≠ "Off".
Proof. split; discriminate. Qed.

(** X18. [do_get_status] answers ['On'] exactly when the status strings
    of both sources start with ['On'], and ['Off'] exactly when both
    start with ['Off']; in every other case it answers the report
    ['LO: <status>, RF: <status>'], which is neither. *)
Theorem X18_status_of_both_sources (self : HeterodyneInstrument.t) :
  let LO_status := HeterodyneInstrument.status (HeterodyneInstrument.LO self) in
  let RF_status := HeterodyneInstrument.status (HeterodyneInstrument.RF self) in
  (HeterodyneInstrument.do_get_status self = "On"
   ↔ String.prefix "On" LO_status = true ∧ String.prefix "On" RF_status = true)
  ∧ (HeterodyneInstrument.do_get_status self = "Off"
     ↔ String.prefix "Off" LO_status = true
       ∧ String.prefix "Off" RF_status = true)
  ∧ (HeterodyneInstrument.do_get_status self ≠ "On" →
     HeterodyneInstrument.do_get_status self ≠ "Off" →
     HeterodyneInstrument.do_get_status self
     = "LO: " +:+ LO_status +:+ ", RF: " +:+ RF_status).
Proof.
  intros LO_status RF_status. unfold HeterodyneInstrument.do_get_status.
  fold LO_status RF_status.
  destruct (report_not_On_Off LO_status RF_status) as [Hn1 Hn2].
  generalize dependent ("LO: " +:+ LO_status +:+ ", RF: " +:+ RF_status).
  intros report Hn1 Hn2.
  pose proof (prefix_On_not_Off LO_status) as HL.
  pose proof (prefix_On_not_Off RF_status) as HR.
  destruct (String.prefix "On" LO_status), (String.prefix "On" RF_status),
    (String.prefix "Off" LO_status), (String.prefix "Off" RF_status);
    cbn [andb]; try (by specialize (HL eq_refl)); try (by specialize (HR eq_refl));
    (split_and!; [split|split|]); try done; try (by intros [? ?]).
Qed.

(** X19. Setting the heterodyne frequency and reading it back: after
    [do_set_frequency(val)] the LO sits at [val − f_RO_mod] and
    [do_get_frequency] returns [val] without a warning; if [f_RO_mod] is
    given another value afterwards, the LO is not retuned and
    [do_get_frequency] still returns [val] but logs the warning. *)
Theorem X19_frequency_round_trip (self : HeterodyneInstrument.t) (val : R) :
  let self' := HeterodyneInstrument.do_set_frequency self val in
  HeterodyneInstrument.frequency (HeterodyneInstrument.LO self')
  = val - HeterodyneInstrument.f_RO_mod self
  ∧ HeterodyneInstrument.do_get_frequency self' = (val, [])
  ∧ ∀ f, f ≠ HeterodyneInstrument.f_RO_mod self →
      HeterodyneInstrument.do_get_frequency
        (HeterodyneInstrument.with_f_RO_mod self' f)
      = (val, ["f_RO_mod between RF and LO is not set correctly"]).
Proof.
  intros self'. split_and!; [done| |].
  - unfold HeterodyneInstrument.do_get_frequency. cbn.
    by rewrite decide_False by (intros H; by apply H).
  - intros f Hf. unfold HeterodyneInstrument.do_get_frequency. cbn.
    rewrite decide_True; [done|]. lra.
Qed.

(** ** The integration weights *)

(** [np.floor(x)] is the integer just below [x]. *)
Lemma np_floor_bounds (x : R) : np_floor x <= x < np_floor x + 1.
Proof.
  unfold np_floor, Int_part. rewrite minus_IZR.
  destruct (archimed x) as [Hup Hlow]. lra.
Qed.

Lemma np_floor_IZR (z : Z) : np_floor (IZR z) = IZR z.
Proof.
  unfold np_floor. apply (f_equal _). symmetry. apply Int_part_spec. lra.
Qed.

Lemma np_floor_in_range (x : R) (n : Z) :
  - IZR n <= x <= IZR n →
  ∃ z : Z, np_floor x = IZR z ∧ (- n ≤ z ≤ n)%Z.
Proof.
  intros [Hlo Hhi]. exists (Int_part x). split; [done|].
  destruct (np_floor_bounds x) as [H1 H2]. unfold np_floor in H1, H2.
  split.
  - assert (IZR (- n - 1) < IZR (Int_part x)) as H%lt_IZR; [|lia].
    rewrite minus_IZR, opp_IZR. lra.
  - apply le_IZR. lra.
Qed.

Lemma length_np_arange (start stop step : Z) :
  length (np_arange start stop step)
  = Z.to_nat ((stop - start + step - 1) / step).
Proof. unfold np_arange. by rewrite length_map, length_seq. Qed.

(** X20. The integration weights that [prepare] computes for the CBox:
    whatever the value of [f_RO_mod], both arrays hold 512 samples, every
    weight is an integer between −127 and 127, and the first samples are
    127 (cosine) and 0 (sine). *)
Theorem X20_CBox_weights_fit_signed_byte (self : HeterodyneInstrument.t) :
  let weight (w : R) := ∃ z : Z, w = IZR z ∧ (-127 ≤ z ≤ 127)%Z in
  let cosI := (HeterodyneInstrument.CBox_weights self).1 in
  let sinI := (HeterodyneInstrument.CBox_weights self).2 in
  length cosI = 512%nat ∧ length sinI = 512%nat
  ∧ Forall weight cosI ∧ Forall weight sinI
  ∧ cosI !! 0%nat = Some 127 ∧ sinI !! 0%nat = Some 0.
Proof.
  intros weight cosI sinI. unfold cosI, sinI, HeterodyneInstrument.CBox_weights.
  cbn [fst snd].
  split_and!.
  - by rewrite !length_map, length_np_arange.
  - by rewrite !length_map, length_np_arange.
  - rewrite !Forall_map. apply Forall_forall. intros n _.
    apply (np_floor_in_range _ 127).
    pose proof (COS_bound (2 * PI * HeterodyneInstrument.f_RO_mod self
                           * (IZR n * 1e-9))). lra.
  - rewrite !Forall_map. apply Forall_forall. intros n _.
    apply (np_floor_in_range _ 127).
    pose proof (SIN_bound (2 * PI * HeterodyneInstrument.f_RO_mod self
                           * (IZR n * 1e-9))). lra.
  - change (np_arange 0 (5 * 512) 5) with (0%Z :: tl (np_arange 0 (5 * 512) 5)).
    cbn [map lookup list_lookup]. apply (f_equal Some).
    rewrite Rmult_0_l, Rmult_0_r, cos_0, Rmult_1_r. apply (np_floor_IZR 127).
  - change (np_arange 0 (5 * 512) 5) with (0%Z :: tl (np_arange 0 (5 * 512) 5)).
    cbn [map lookup list_lookup]. apply (f_equal Some).
    rewrite Rmult_0_l, Rmult_0_r, sin_0, Rmult_0_r. apply (np_floor_IZR 0).
Qed.

(** ** Demodulation *)

Lemma arr_binop_same (op : R → R → R) (a b : array) :
  length a = length b → arr_binop op a b = inr (zip_with op a b).
Proof.
  intros Hab. unfold arr_binop. rewrite <- Hab, broadcast_len_same.
  cbn [bind ret]. by rewrite !broadcast_to_same.
Qed.

Lemma foldr_Rplus_const {A : Type} (v : R) (l : list A) :
  foldr Rplus 0 (map (λ _, v) l) = INR (length l) * v.
Proof.
  induction l as [|x l IH]; [cbn; lra|].
  cbn [map foldr]. rewrite IH. change (length (x :: l)) with (S (length l)).
  rewrite S_INR. lra.
Qed.

Lemma np_average_const {A : Type} (v : R) (l : list A) :
  l ≠ [] → np_average (map (λ _, v) l) = v.
Proof.
  intros Hl. unfold np_average. rewrite foldr_Rplus_const, length_map.
  assert (INR (length l) ≠ 0).
  { apply not_0_INR. by destruct l. }
  by field.
Qed.

Section demodulation.
Variables (rho a b : R).

Lemma demodulated_I (c s : array) :
  Forall2 (λ ck sk, ck * ck + sk * sk = rho) c s →
  zip_with Rplus (zip_with Rmult c (channel_0 a b c s))
                 (zip_with Rmult s (channel_1 a b c s))
  = map (λ _, rho * a) c.
Proof.
  unfold channel_0, channel_1.
  induction 1 as [|ck sk c s Hk _ IH]; [done|].
  cbn [zip_with map]. rewrite IH. apply (f_equal (λ x, x :: _)).
  rewrite <- Hk. ring.
Qed.

Lemma demodulated_Q (c s : array) :
  Forall2 (λ ck sk, ck * ck + sk * sk = rho) c s →
  zip_with Rplus (zip_with Rmult (arr_neg s) (channel_0 a b c s))
                 (zip_with Rmult c (channel_1 a b c s))
  = map (λ _, rho * b) c.
Proof.
  unfold channel_0, channel_1, arr_neg.
  induction 1 as [|ck sk c s Hk _ IH]; [done|].
  cbn [zip_with map]. rewrite IH. apply (f_equal (λ x, x :: _)).
  rewrite <- Hk. ring.
Qed.

End demodulation.

(** X21. Single-sideband demodulation recovers the complex amplitude:
    when [_f_RO_mod] is non-zero, [_single_sideband_demod] is [True], the
    weights [cosI], [sinI] are non-empty arrays of one length with
    [cosI[k]² + sinI[k]² = rho] at every sample, and the two channels carry
    [a·cosI − b·sinI] and [a·sinI + b·cosI], then [demodulate_data]
    returns [rho·a + 1j·rho·b]. *)
Theorem X21_single_sideband_demodulation
    (self : HeterodyneInstrument.t) (f rho a b : R) (c s : array) :
  HeterodyneInstrument._f_RO_mod self = Some f → f ≠ 0 →
  HeterodyneInstrument._single_sideband_demod self = Some true →
  HeterodyneInstrument.cosI self = Some c →
  HeterodyneInstrument.sinI self = Some s →
  c ≠ [] →
  Forall2 (λ ck sk, ck * ck + sk * sk = rho) c s →
  HeterodyneInstrument.demodulate_data self
    [channel_0 a b c s; channel_1 a b c s]
  = inr (rho * a, rho * b).
Proof.
  intros Hf Hf0 Hssb Hc Hs Hne Hcs.
  pose proof (Forall2_length _ _ _ Hcs) as Hlen.
  assert (Hl0 : length (channel_0 a b c s) = length c).
  { unfold channel_0. by rewrite length_zip_with, <- Hlen, Nat.min_id. }
  assert (Hl1 : length (channel_1 a b c s) = length c).
  { unfold channel_1. by rewrite length_zip_with, <- Hlen, Nat.min_id. }
  unfold HeterodyneInstrument.demodulate_data.
  rewrite Hf, Hssb, Hc, Hs.
  cbn [HeterodyneInstrument.getattr HeterodyneInstrument.and_then].
  rewrite decide_True by done.
  cbn [HeterodyneInstrument.and_then].
  unfold getitem.
  cbn [lookup list_lookup ret HeterodyneInstrument.lift
       HeterodyneInstrument.and_then].
  rewrite (arr_binop_same Rmult c) by done.
  cbn [HeterodyneInstrument.lift HeterodyneInstrument.and_then].
  rewrite (arr_binop_same Rmult s) by (by rewrite Hl1).
  cbn [HeterodyneInstrument.lift HeterodyneInstrument.and_then].
  rewrite (arr_binop_same Rplus)
    by (rewrite !length_zip_with, Hl0, Hl1, <- Hlen; lia).
  cbn [HeterodyneInstrument.lift HeterodyneInstrument.and_then].
  rewrite (arr_binop_same Rmult (arr_neg s))
    by (unfold arr_neg; rewrite length_map, Hl0; done).
  cbn [HeterodyneInstrument.lift HeterodyneInstrument.and_then].
  rewrite (arr_binop_same Rmult c (channel_1 a b c s)) by done.
  cbn [HeterodyneInstrument.lift HeterodyneInstrument.and_then].
  rewrite (arr_binop_same Rplus)
    by (unfold arr_neg; rewrite !length_zip_with, length_map, Hl0, Hl1, <- Hlen;
        lia).
  cbn [HeterodyneInstrument.lift HeterodyneInstrument.and_then].
  rewrite (demodulated_I rho a b c s Hcs), (demodulated_Q rho a b c s Hcs).
  by rewrite !np_average_const.
Qed.

Lemma X21_single_sideband_demodulation_witness :
  HeterodyneInstrument.demodulate_data two_sample_instrument
    [channel_0 2 3 [1; 0] [0; 1]; channel_1 2 3 [1; 0] [0; 1]]
  = inr (1 * 2, 1 * 3).
Proof.
  apply (X21_single_sideband_demodulation two_sample_instrument 1 1 2 3
           [1; 0] [0; 1]); try reflexivity; try discriminate.
  - lra.
  - repeat constructor; lra.
Defined.

(** * Properties of the demonstrator helpers *)

(** [split_slash s] ends in a piece without a slash, and [s] is that
    piece after a front part that is empty or ends in a slash. *)
Lemma split_slash_last (s : string) :
  ∃ pieces name front,
    split_slash s = pieces ++ [name]
    ∧ s = front +:+ name
    ∧ ("/"%char ∉ String.list_ascii_of_string name)
    ∧ ((pieces = [] ∧ front = "") ∨ (pieces ≠ [] ∧ ∃ q, front = q +:+ "/")).
Proof.
  induction s as [|c s (pieces & name & front & Hsplit & Hs & Hname & Hfront)].
  - exists [], "", "". split_and!; [done|done| |by left].
    cbn. apply not_elem_of_nil.
  - cbn [split_slash]. destruct (Ascii.eqb_spec c "/") as [->|Hc].
    + exists ("" :: pieces), name, (String "/" front).
      rewrite Hsplit. split_and!; [done|by rewrite Hs|done|].
      right. split; [done|].
      destruct Hfront as [[_ ->]|[_ [q ->]]]; [by exists ""|].
      by exists (String "/" q).
    + rewrite Hsplit.
      destruct Hfront as [[-> ->]|[Hp [q ->]]].
      * exists [], (String c name), "". cbn in Hs. subst s.
        split_and!; [done|done| |by left].
        cbn [String.list_ascii_of_string]. by intros [?|?]%elem_of_cons.
      * destruct pieces as [|p ps]; [done|].
        exists (String c p :: ps), name, (String c (q +:+ "/")).
        split_and!; [done|by rewrite Hs|done|].
        right. split; [done|]. by exists (String c q).
Qed.

(** X22. [_retrieve_file_from_url] never raises on the indexing
    [split("/")[-1]]: for every URL it calls [urlretrieve] once, on the
    URL and the path that joins the package directory, [measurement],
    [demonstrator_helper], [qasm_files] and the file name; it returns
    that path when [urlretrieve] returns and raises what [urlretrieve]
    raises otherwise.  The file name is what follows the last slash of
    the URL (the whole URL when it has none) and holds no slash. *)
Theorem X22_retrieve_names_file_after_last_slash
    (pq_path : string) (os_path_join : list string → string)
    (E : Type) (urlretrieve : string → string → E + unit)
    (file_url : string) :
  ∃ front file_name,
    file_url = front +:+ file_name
    ∧ ("/"%char ∉ String.list_ascii_of_string file_name)
    ∧ (front = "" ∨ ∃ q, front = q +:+ "/")
    ∧ let file_path :=
        os_path_join [pq_path; "measurement"; "demonstrator_helper";
                      "qasm_files"; file_name] in
      _retrieve_file_from_url pq_path os_path_join E urlretrieve file_url
      = match urlretrieve file_url file_path with
        | inl e => inl (Download e)
        | inr _ => inr file_path
        end.
Proof.
  destruct (split_slash_last file_url)
    as (pieces & name & front & Hsplit & Hs & Hname & Hfront).
  exists front, name. split_and!; [done|done| |].
  - destruct Hfront as [[_ ->]|[_ ?]]; [by left|by right].
  - unfold _retrieve_file_from_url, getitem_last.
    by rewrite Hsplit, last_snoc.
Qed.
